(** * trsh: a shallow embedding of the trash store of [trsh.py]

    The development follows the layout of the source file: the file
    system calls the program makes ([pathlib], [os], [shutil]), the three
    SQLite tables of [Trash._init_db], the helper methods of class [Trash]
    and then its public operations [delete], [restore], [empty], [purge],
    [undo], [verify] and [config_set].  Theorems come last. *)

From Stdlib Require Import ZArith QArith Qabs Lia Ascii.
From stdpp Require Import gmap strings list fin_maps.

Local Open Scope Z_scope.

(** ** Exceptions and results

    A Python call either returns a value or raises.  Only the exception
    classes the program can meet are listed. *)

Inductive exn :=
  | AttributeError
  | FileNotFoundError
  | FileExistsError
  | NotADirectoryError
  | PermissionError
  | IsADirectoryError
  | ShutilError
  | IntegrityError
  | OverflowError
  | ValueError.

Inductive result (A : Type) :=
  | Return (a : A)
  | Raise (x : exn).
Arguments Return {A} a.
Arguments Raise {A} x.

Definition bind {A B} (r : result A) (k : A -> result B) : result B :=
  match r with
  | Return a => k a
  | Raise x => Raise x
  end.

Notation "x <- r ;; k" := (bind r (fun x => k))
  (at level 100, r at next level, right associativity).

Definition returned {A} (r : result A) : bool :=
  match r with Return _ => true | Raise _ => false end.

(** ** Paths

    Paths are the strings [str(path)] of the source. *)

Definition slash : ascii := "/"%char.

(** [rsplit s] cuts [s] at its last slash: the part before it, when
    there is a slash, and the part after it. *)
Fixpoint rsplit (s : string) : option string * string :=
  match s with
  | EmptyString => (None, EmptyString)
  | String c r =>
      match rsplit r with
      | (Some d, n) => (Some (String c d), n)
      | (None, n) =>
          if Ascii.eqb c slash then (Some EmptyString, n)
          else (None, String c n)
      end
  end.

(** [Path.name] *)
Definition path_name (p : string) : string := snd (rsplit p).

(** [Path.parent] *)
Definition path_parent (p : string) : string :=
  match fst (rsplit p) with
  | Some EmptyString => "/"
  | Some d => d
  | None => "."
  end.

(** [Path.__truediv__]: [d / n] *)
Definition joinpath (d n : string) : string :=
  if String.eqb d "/" then "/" +:+ n else d +:+ "/" +:+ n.

(** [str.startswith] *)
Definition startswith (s p : string) : bool := String.prefix p s.

(** [str.endswith] for a one-character suffix, and [s[:-1]] *)
Fixpoint endswith_char (s : string) (c : ascii) : bool :=
  match s with
  | EmptyString => false
  | String a r =>
      match r with
      | EmptyString => Ascii.eqb a c
      | String _ _ => endswith_char r c
      end
  end.

Fixpoint drop_last (s : string) : string :=
  match s with
  | EmptyString => EmptyString
  | String a r =>
      match r with
      | EmptyString => EmptyString
      | String _ _ => String a (drop_last r)
      end
  end.

(** The proper ancestors of a path, outermost first. *)
Fixpoint ancestors_from (acc s : string) : list string :=
  match s with
  | EmptyString => []
  | String c r =>
      (if Ascii.eqb c slash
       then [if String.eqb acc "" then "/" else acc] else [])
      ++ ancestors_from (acc +:+ String c EmptyString) r
  end.

Definition ancestors (p : string) : list string := ancestors_from "" p.

(** [is_under d k]: [k] lies strictly below directory [d]. *)
Definition is_under (d k : string) : bool :=
  startswith k (if String.eqb d "/" then "/" else d +:+ "/")
  && negb (String.eqb k d).

(** ** The file system

    A finite map from canonical absolute paths to what is stored there.
    A directory's entries are the keys below it. *)

Inductive node :=
  | File (data : string)
  | Dir.

#[global] Instance node_eq_dec : EqDecision node.
Proof. solve_decision. Defined.

Abbreviation filesystem := (gmap string node).

Definition path_exists (fs : filesystem) (p : string) : bool :=
  match fs !! p with Some _ => true | None => false end.

Definition is_file (fs : filesystem) (p : string) : bool :=
  match fs !! p with Some (File _) => true | _ => false end.

Definition is_dir (fs : filesystem) (p : string) : bool :=
  match fs !! p with Some Dir => true | _ => false end.

(** The part of the file system at or below [p]. *)
Definition in_tree (p k : string) : bool := String.eqb k p || is_under p k.

Definition subtree (p : string) (fs : filesystem) : filesystem :=
  filter (fun kv => in_tree p kv.1 = true) fs.

Definition without_tree (p : string) (fs : filesystem) : filesystem :=
  filter (fun kv => in_tree p kv.1 = false) fs.

Definition has_children (p : string) (fs : filesystem) : bool :=
  bool_decide (filter (fun kv : string * node => is_under p kv.1 = true) fs <> ∅).

(** ** The environment of a call

    Everything a call reads from outside the store: path resolution, the
    hash function, the holding directory of the [Trash] object, the
    readings of the clock, the stream of fresh uuids, the answer typed at
    the prompt of [empty], which system calls fail during the call, and
    the order in which SQLite returns rows whose [ORDER BY] keys are
    equal.  The clock is read in whole seconds; a call that reads it
    twice may get two different readings.  [os.stat] fails on a path for
    the whole call or not at all. *)

Record env := {
  resolve : string -> string;          (* Path.resolve *)
  hexdigest : string -> string;        (* hashlib.sha256(data).hexdigest() *)
  files_dir : string;                  (* self.files_dir *)
  now : nat -> Z;                      (* the n-th int(datetime.now().timestamp()) *)
  uuid4 : nat -> string;               (* the n-th str(uuid.uuid4()) of the call *)
  answer : string;                     (* input(...).strip().lower() *)
  stat_fails : string -> bool;         (* os.stat raises PermissionError *)
  read_fails : string -> bool;         (* open/read raises *)
  move_fails : string -> string -> bool; (* shutil.move raises *)
  remove_fails : string -> bool;       (* unlink/rmtree/rmdir raises *)
  insert_fails : bool;                 (* the INSERT of delete raises *)
  tie_items : string -> string -> bool;  (* of two rows of trash_items with
                                            equal keys, by id: the first
                                            comes first *)
  tie_operations : Z -> Z -> bool      (* the same for operations *)
}.

(** ** System calls *)

(** [Path.exists], [Path.is_file] and [Path.is_dir] call [os.stat]; they
    answer [False] for a missing path and let every other error of
    [stat] through.  [path_exists], [is_file] and [is_dir] above are
    their answers when [stat] works.  Listing a directory always
    works. *)
Definition Path_exists (e : env) (fs : filesystem) (p : string) : result bool :=
  if stat_fails e p then Raise PermissionError else Return (path_exists fs p).

(** [Path.unlink] *)
Definition unlink (e : env) (p : string) (fs : filesystem) : result filesystem :=
  if remove_fails e p then Raise PermissionError
  else match fs !! p with
       | Some (File _) => Return (delete p fs)
       | Some Dir => Raise IsADirectoryError
       | None => Raise FileNotFoundError
       end.

(** [shutil.rmtree] *)
Definition rmtree (e : env) (p : string) (fs : filesystem) : result filesystem :=
  if remove_fails e p then Raise PermissionError
  else match fs !! p with
       | Some Dir => Return (without_tree p fs)
       | Some (File _) => Raise NotADirectoryError
       | None => Raise FileNotFoundError
       end.

(** [Path.rmdir] *)
Definition rmdir (e : env) (p : string) (fs : filesystem) : result filesystem :=
  if remove_fails e p then Raise PermissionError
  else match fs !! p with
       | Some Dir =>
           if has_children p fs then Raise PermissionError
           else Return (delete p fs)
       | Some (File _) => Raise NotADirectoryError
       | None => Raise FileNotFoundError
       end.

(** [try: p.rmdir() except: pass] *)
Definition rmdir_quiet (e : env) (p : string) (fs : filesystem) : filesystem :=
  match rmdir e p fs with
  | Return fs' => fs'
  | Raise _ => fs
  end.

(** [Path.mkdir()] *)
Definition mkdir (p : string) (fs : filesystem) : result filesystem :=
  match fs !! p with
  | Some _ => Raise FileExistsError
  | None => Return (<[p := Dir]> fs)
  end.

(** [Path.mkdir(parents=True, exist_ok=True)]: every missing ancestor
    and the directory itself are created; a regular file in the way
    raises. *)
Definition ensure_dir (r : result filesystem) (d : string) : result filesystem :=
  fs <- r ;;
  match fs !! d with
  | Some Dir => Return fs
  | Some (File _) => Raise FileExistsError
  | None => Return (<[d := Dir]> fs)
  end.

Definition mkdir_parents (p : string) (fs : filesystem) : result filesystem :=
  fold_left ensure_dir (ancestors p ++ [p]) (Return fs).

Definition drop_string (n : nat) (s : string) : string :=
  String.substring n (String.length s - n) s.

Definition rekey (src dst k : string) : string :=
  dst +:+ drop_string (String.length src) k.

(** [os.rename]: a regular file replaces a regular file at the
    destination; a directory moves with everything below it. *)
Definition os_rename (src dst : string) (fs : filesystem) : result filesystem :=
  match fs !! src with
  | None => Raise FileNotFoundError
  | Some (File d) =>
      match fs !! dst with
      | Some Dir => Raise IsADirectoryError
      | _ => Return (<[dst := File d]> (delete src fs))
      end
  | Some Dir =>
      match fs !! dst with
      | Some (File _) => Raise NotADirectoryError
      | Some Dir => Raise FileExistsError
      | None =>
          Return (map_fold (fun k n acc => <[rekey src dst k := n]> acc)
                           (without_tree src fs) (subtree src fs))
      end
  end.

(** [shutil.move(src, dst)]: into [dst] when [dst] is a directory,
    onto [dst] otherwise.  The copy that [shutil] falls back on across
    devices ends in the same state as the rename or fails with it. *)
Definition shutil_move (e : env) (src dst : string) (fs : filesystem)
  : result filesystem :=
  if move_fails e src dst then Raise PermissionError
  else if is_dir fs dst then
    if String.eqb src dst then Return fs
    else
      let real_dst := joinpath dst (path_name src) in
      if path_exists fs real_dst then Raise ShutilError
      else os_rename src real_dst fs
  else os_rename src dst fs.

(** ** The catalog

    The rows of [trash_items] and [operations] in rowid order, and the
    [config] table.  Columns [mime_type] and [compressed] are never
    written by the program and are left out.  A statement takes effect
    at once on the connection the program reads from; [commit] is not
    modelled. *)

Record item_row := {
  item_id : string;
  original_path : string;
  trashed_path : string;
  deletion_time : Z;
  file_size : Z;
  file_hash : string;
  deletion_reason : option string;
  tags : list string;
  restored : bool
}.

Record operation_row := {
  op_id : Z;
  operation_type : string;
  timestamp : Z;
  details : list string;
  undone : bool
}.

Record world := {
  fs : filesystem;
  trash_items : list item_row;
  operations : list operation_row;
  config : gmap string string
}.

Definition set_fs (f : filesystem) (w : world) : world :=
  {| fs := f; trash_items := trash_items w;
     operations := operations w; config := config w |}.

Definition set_trash_items (l : list item_row) (w : world) : world :=
  {| fs := fs w; trash_items := l;
     operations := operations w; config := config w |}.

Definition set_operations (l : list operation_row) (w : world) : world :=
  {| fs := fs w; trash_items := trash_items w;
     operations := l; config := config w |}.

Definition set_config (c : gmap string string) (w : world) : world :=
  {| fs := fs w; trash_items := trash_items w;
     operations := operations w; config := c |}.

Definition set_restored (r : item_row) : item_row :=
  {| item_id := item_id r; original_path := original_path r;
     trashed_path := trashed_path r; deletion_time := deletion_time r;
     file_size := file_size r; file_hash := file_hash r;
     deletion_reason := deletion_reason r; tags := tags r;
     restored := true |}.

Definition set_undone (o : operation_row) : operation_row :=
  {| op_id := op_id o; operation_type := operation_type o;
     timestamp := timestamp o; details := details o; undone := true |}.

(** *** SQL statements *)

(** [WHERE restored = 0] *)
Definition not_restored (l : list item_row) : list item_row :=
  List.filter (fun r => negb (restored r)) l.

(** [ORDER BY]: the rows sorted by [before], each row set in front of
    the first row it is [before].  SQLite fixes no order between rows
    with equal keys (it depends on the plan of the query: a sort keeps
    rowid order, a backward scan of an index reverses it), so the
    comparisons below ask the environment whenever the keys are equal. *)
Fixpoint insert_by {A} (before : A -> A -> bool) (x : A) (l : list A) : list A :=
  match l with
  | [] => [x]
  | y :: l' => if before x y then x :: y :: l' else y :: insert_by before x l'
  end.

Definition order_by {A} (before : A -> A -> bool) (l : list A) : list A :=
  fold_right (insert_by before) [] l.

(** [ORDER BY deletion_time ASC] *)
Definition deletion_time_asc (e : env) (a b : item_row) : bool :=
  (deletion_time a <? deletion_time b)
  || ((deletion_time a =? deletion_time b)
      && tie_items e (item_id a) (item_id b)).

(** [ORDER BY deletion_time DESC] *)
Definition deletion_time_desc (e : env) (a b : item_row) : bool :=
  (deletion_time b <? deletion_time a)
  || ((deletion_time a =? deletion_time b)
      && tie_items e (item_id a) (item_id b)).

(** [ORDER BY timestamp DESC] *)
Definition timestamp_desc (e : env) (a b : operation_row) : bool :=
  (timestamp b <? timestamp a)
  || ((timestamp a =? timestamp b)
      && tie_operations e (op_id a) (op_id b)).

(** A Python [int] bound to a parameter of a statement: SQLite integers
    have 64 bits, and [execute] raises [OverflowError] outside them. *)
Definition sqlite_int (n : Z) : result Z :=
  if (- 2 ^ 63 <=? n) && (n <? 2 ^ 63) then Return n
  else Raise OverflowError.

(** [LIMIT ?]: a negative limit is no limit. *)
Definition sql_limit {A} (n : Z) (l : list A) : list A :=
  if n <? 0 then l else firstn (Z.to_nat n) l.

(** [COALESCE(SUM(file_size), 0)] *)
Definition sum_file_size (l : list item_row) : Z :=
  fold_right (fun r acc => file_size r + acc) 0 l.

(** [DELETE FROM trash_items WHERE id = ?] *)
Definition delete_item (i : string) (l : list item_row) : list item_row :=
  List.filter (fun r => negb (String.eqb (item_id r) i)) l.

(** [UPDATE trash_items SET restored = 1 WHERE id = ?] *)
Definition mark_restored (i : string) (l : list item_row) : list item_row :=
  map (fun r => if String.eqb (item_id r) i then set_restored r else r) l.

(** [UPDATE operations SET undone = 1 WHERE id = ?] *)
Definition mark_undone (i : Z) (l : list operation_row) : list operation_row :=
  map (fun o => if op_id o =? i then set_undone o else o) l.

(** [SELECT * FROM trash_items WHERE id = ?] with [fetchone] *)
Definition select_item (i : string) (l : list item_row) : option item_row :=
  List.find (fun r => String.eqb (item_id r) i) l.

(** [INSERT INTO trash_items]: [id] is the primary key. *)
Definition insert_item (e : env) (r : item_row) (l : list item_row)
  : result (list item_row) :=
  if insert_fails e then Raise IntegrityError
  else if existsb (fun r' => String.eqb (item_id r') (item_id r)) l
       then Raise IntegrityError
       else Return (l ++ [r]).

(** [LIKE]: [%] is any run of characters, [_] any one character, letters
    compare without case. *)
Definition lower (c : ascii) : ascii :=
  let n := nat_of_ascii c in
  if ((65 <=? n) && (n <=? 90))%nat then ascii_of_nat (n + 32) else c.

Fixpoint like_list (p s : list ascii) : bool :=
  match p with
  | [] => match s with [] => true | _ => false end
  | c :: p' =>
      if Ascii.eqb c "%" then
        (fix any (s : list ascii) : bool :=
           like_list p' s ||
           match s with [] => false | _ :: s' => any s' end) s
      else match s with
           | [] => false
           | d :: s' =>
               (Ascii.eqb c "_" || Ascii.eqb (lower c) (lower d))
               && like_list p' s'
           end
  end.

Definition sql_like (s pattern : string) : bool :=
  like_list (String.list_ascii_of_string pattern) (String.list_ascii_of_string s).

(** ** class TrashItem

    [TrashItem.__init__] reads the columns of a [sqlite3.Row] by
    subscript and then calls [row.get('compressed', 0)].  A [sqlite3.Row]
    supports subscripts, [len], iteration, comparison and the method
    [keys]; any other attribute raises [AttributeError]. *)

Definition Row_attributes : list string := ["keys"].

Definition Row_getattr (name : string) : result unit :=
  if bool_decide (name ∈ Row_attributes) then Return tt
  else Raise AttributeError.

Definition TrashItem (row : item_row) : result item_row :=
  let item := row in                     (* self.id = row['id'] ... *)
  _ <- Row_getattr "get" ;;              (* row.get('compressed', 0) *)
  Return item.

(** ** What the operations report

    The value of [delete] is the message it prints, which fixes the
    boolean it returns. *)

Inductive delete_message :=
  | NotFound           (* "File not found", False *)
  | CriticalPath       (* "Refusing to delete critical path", False *)
  | CannotAccess       (* "Cannot access", False *)
  | AlreadyInTrash     (* "File already in trash", True *)
  | WouldDelete        (* "Would delete", True *)
  | MoveFailed         (* "Failed to move file", False *)
  | MetadataFailed     (* "Failed to store metadata", False *)
  | Deleted.           (* "Deleted", True *)

Definition delete_returns (m : delete_message) : bool :=
  match m with
  | AlreadyInTrash | WouldDelete | Deleted => true
  | _ => false
  end.

Inductive purge_message :=
  | WithinQuota        (* "Trash size ... is within quota" *)
  | SpecifyPolicy      (* "Specify --older-than or --size-quota" *)
  | NoFilesToPurge     (* "No files to purge" *)
  | WouldPurge (n : nat)
  | Purged (n : Z).

Inductive issue :=
  | orphaned (name : string)
  | missing (id : string).

(** ** Floats

    A Python [float]: a finite binary float, given as the rational it
    is, an infinity or a NaN ([--size-quota] takes [inf] and [nan]). *)

Inductive pyfloat :=
  | Finite (q : Q)
  | Infinity (negative : bool)
  | NaN.

(** ** class Trash *)

Module Trash.

(** *** Helper methods *)

Definition critical : list string :=
  ["/"; "/bin"; "/sbin"; "/usr"; "/etc"; "/var"; "/boot";
   "/sys"; "/proc"; "/dev"].

Definition _is_critical_path (e : env) (path : string) : bool :=
  let path_str := resolve e path in
  existsb (fun p => String.eqb path_str p || startswith path_str (p +:+ "/"))
          critical.

(** [st_size] of a regular file *)
Definition st_size (data : string) : Z := Z.of_nat (String.length data).

(** [p.stat().st_size] for a regular file [p] holding [data] *)
Definition stat_st_size (e : env) (p : string) (data : string) : result Z :=
  if stat_fails e p then Raise PermissionError else Return (st_size data).

(** One turn of the loop over [path.rglob('*')], for the entry stored as
    [n] at [k].  [item.is_file()] stands outside the [try] and lets the
    error of [stat] through; only the [stat] inside the [try] is
    forgiven. *)
Definition add_item_size (e : env) (path : string) (k : string) (n : node)
  (acc : result Z) : result Z :=
  total <- acc ;;
  if is_under path k then
    if stat_fails e k then Raise PermissionError       (* item.is_file() *)
    else
      match n with
      | File data =>
          match stat_st_size e k data with             (* try: ... *)
          | Return size => Return (total + size)
          | Raise _ => Return total                    (* except: pass *)
          end
      | Dir => Return total
      end
  else Return total.

Definition _get_path_size (e : env) (fs : filesystem) (path : string) : result Z :=
  if stat_fails e path then Raise PermissionError      (* path.is_file() *)
  else
    match fs !! path with
    | Some (File data) => stat_st_size e path data
    | _ => map_fold (add_item_size e path) (Return 0) fs
    end.

(** Returns the hash and the number of uuids drawn to make it.  The only
    call is in [delete], after [_get_path_size] has taken [is_file] of
    the same path. *)
Definition _calculate_hash (e : env) (fs : filesystem) (path : string)
  : string * nat :=
  match fs !! path with
  | Some (File data) =>
      if read_fails e path then ("file_" +:+ uuid4 e 0%nat, 1%nat)
      else ("file_" +:+ hexdigest e data, 0%nat)
  | _ => ("dir_" +:+ uuid4 e 0%nat, 1%nat)
  end.

(** [AUTOINCREMENT]: one more than the largest id handed out; rows of
    [operations] are never deleted. *)
Definition next_op_id (l : list operation_row) : Z :=
  1 + fold_right Z.max 0 (map op_id l).

(** [readings] is the number of times the call has read the clock
    before; [_log_operation] reads it again. *)
Definition _log_operation (e : env) (readings : nat) (op_type : string)
  (details : list string) (w : world) : world :=
  set_operations
    (operations w ++
       [{| op_id := next_op_id (operations w); operation_type := op_type;
           timestamp := now e readings; details := details;
           undone := false |}]) w.

(** *** Trash.__init__ *)

Definition init (e : env) (fs0 : filesystem) : result world :=
  fs1 <- mkdir_parents (files_dir e) fs0 ;;
  Return {| fs := fs1; trash_items := []; operations := []; config := ∅ |}.

(** *** Trash.delete *)

(** [SELECT id FROM trash_items WHERE file_hash = ? AND restored = 0] *)
Definition select_by_hash (h : string) (l : list item_row) : option item_row :=
  List.find (fun r => String.eqb (file_hash r) h && negb (restored r)) l.

Definition delete (e : env) (filepath : string) (tags : list string)
  (reason : option string) (dry_run : bool) (w : world)
  : world * result delete_message :=
  let path := filepath in
  match Path_exists e (fs w) (resolve e path) with
  | Raise x => (w, Raise x)
  | Return false => (w, Return NotFound)
  | Return true =>
  if _is_critical_path e path then (w, Return CriticalPath)
  else
    let path := resolve e path in
    match _get_path_size e (fs w) path with
    | Raise _ => (w, Return CannotAccess)
    | Return file_size =>
        let '(file_hash, drawn) := _calculate_hash e (fs w) path in
        let existing := select_by_hash file_hash (trash_items w) in
        if bool_decide (is_Some existing) && startswith file_hash "file_" then
          if dry_run then (w, Return AlreadyInTrash)
          else
            match (if is_file (fs w) path then unlink e path (fs w)
                   else rmtree e path (fs w)) with
            | Return fs1 => (set_fs fs1 w, Return AlreadyInTrash)
            | Raise x => (w, Raise x)
            end
        else
          let item_id := uuid4 e drawn in
          let timestamp := now e 0%nat in
          let trash_subdir := joinpath (files_dir e) item_id in
          let trashed_path := joinpath trash_subdir (path_name path) in
          if dry_run then (w, Return WouldDelete)
          else
            match mkdir_parents trash_subdir (fs w) with
            | Raise x => (w, Raise x)
            | Return fs1 =>
                match shutil_move e path trashed_path fs1 with
                | Raise _ =>
                    (set_fs (rmdir_quiet e trash_subdir fs1) w, Return MoveFailed)
                | Return fs2 =>
                    let row :=
                      {| item_id := item_id; original_path := path;
                         trashed_path := trashed_path;
                         deletion_time := timestamp; file_size := file_size;
                         file_hash := file_hash; deletion_reason := reason;
                         tags := tags; restored := false |} in
                    match insert_item e row (trash_items w) with
                    | Raise _ =>
                        let fs3 :=
                          match shutil_move e trashed_path path fs2 with
                          | Return fs' => rmdir_quiet e trash_subdir fs'
                          | Raise _ => fs2
                          end in
                        (set_fs fs3 w, Return MetadataFailed)
                    | Return items =>
                        let w1 := set_trash_items items (set_fs fs2 w) in
                        (_log_operation e 1%nat "delete" [item_id] w1,
                         Return Deleted)
                    end
                end
            end
    end
  end.

(** *** Trash.restore *)

(** One turn of the loop of [restore], after the row has been wrapped:
    the world and whether the item counted as restored. *)
Definition restore_item (e : env) (output : option string) (dry_run : bool)
  (item : item_row) (w : world) : world * result bool :=
  let original_path := original_path item in
  let trashed_path := trashed_path item in
  let target_path :=
    match output with
    | Some out => joinpath out (path_name original_path)
    | None => original_path
    end in
  if dry_run then (w, Return false)
  else
    match Path_exists e (fs w) target_path with
    | Raise x => (w, Raise x)
    | Return true => (w, Return false)
    | Return false =>
        match Path_exists e (fs w) trashed_path with
        | Raise x => (w, Raise x)
        | Return false =>
            (set_trash_items (delete_item (item_id item) (trash_items w)) w,
             Return false)
        | Return true =>
            match mkdir_parents (path_parent target_path) (fs w) with
            | Raise x => (w, Raise x)
            | Return fs1 =>
                match shutil_move e trashed_path target_path fs1 with
                | Raise _ => (set_fs fs1 w, Return false)
                | Return fs2 =>
                    (set_trash_items
                       (mark_restored (item_id item) (trash_items w))
                       (set_fs (rmdir_quiet e (path_parent trashed_path) fs2) w),
                     Return true)
                end
            end
        end
    end.

Fixpoint restore_loop (e : env) (output : option string) (dry_run : bool)
  (items : list item_row) (w : world) (restored_count : Z)
  : world * result Z :=
  match items with
  | [] => (w, Return restored_count)
  | row :: rest =>
      match TrashItem row with
      | Raise x => (w, Raise x)
      | Return item =>
          match restore_item e output dry_run item w with
          | (w1, Raise x) => (w1, Raise x)
          | (w1, Return ok) =>
              restore_loop e output dry_run rest w1
                (if ok then restored_count + 1 else restored_count)
          end
      end
  end.

Definition restore (e : env) (pattern : option string) (output : option string)
  (dry_run interactive : bool) (w : world) : world * result Z :=
  if interactive then (w, Return 0)
  else
    match pattern with
    | None => (w, Return 0)
    | Some pattern =>
        if String.eqb pattern "" then (w, Return 0)
        else
          let items :=
            order_by (deletion_time_desc e)
              (List.filter
                 (fun r => sql_like (original_path r) ("%" +:+ pattern +:+ "%")
                           && negb (restored r))
                 (trash_items w)) in
          match items with
          | [] => (w, Return 0)
          | _ => restore_loop e output dry_run items w 0
          end
    end.

(** *** Trash.empty *)

Definition empty (e : env) (force dry_run : bool) (w : world)
  : world * result unit :=
  let count := length (not_restored (trash_items w)) in
  if Nat.eqb count 0 then (w, Return tt)
  else if dry_run then (w, Return tt)
  else if negb force && negb (String.eqb (answer e) "yes") then (w, Return tt)
  else
    match (fs1 <- rmtree e (files_dir e) (fs w) ;; mkdir (files_dir e) fs1) with
    | Raise _ => (w, Return tt)
    | Return fs2 =>
        (set_trash_items (List.filter restored (trash_items w)) (set_fs fs2 w),
         Return tt)
    end.

(** *** Trash.purge *)

(** [x * 1024]: exact on a finite float unless the product reaches
    2^1024, where it becomes an infinity. *)
Definition times_1024 (x : pyfloat) : pyfloat :=
  match x with
  | Finite q =>
      let p := (q * inject_Z 1024)%Q in
      if Qle_bool (inject_Z (2 ^ 1024)) (Qabs p)
      then Infinity (negb (Qle_bool 0 p))
      else Finite p
  | _ => x
  end.

(** [int(x)] on a float: truncation towards zero; an infinity raises
    [OverflowError] and a NaN [ValueError]. *)
Definition int_of_Q (q : Q) : Z := Z.quot (Qnum q) (Zpos (Qden q)).

Definition int_of_float (x : pyfloat) : result Z :=
  match x with
  | Finite q => Return (int_of_Q q)
  | Infinity _ => Raise OverflowError
  | NaN => Raise ValueError
  end.

(** [int(size_quota * 1024 * 1024 * 1024)] *)
Definition quota_bytes (size_quota : pyfloat) : result Z :=
  int_of_float (times_1024 (times_1024 (times_1024 size_quota))).

(** [timedelta(days=1)], with local time at a fixed offset from UTC. *)
Definition seconds_per_day : Z := 86400.

(** [[TrashItem(row) for row in rows]] *)
Fixpoint TrashItems (rows : list item_row) : result (list item_row) :=
  match rows with
  | [] => Return []
  | row :: rest =>
      item <- TrashItem row ;;
      items <- TrashItems rest ;;
      Return (item :: items)
  end.

(** The selection loop of the quota policy. *)
Fixpoint select_over_quota (rows : list item_row) (current_size quota : Z)
  : result (list item_row) :=
  match rows with
  | [] => Return []
  | row :: rest =>
      if current_size <=? quota then Return []
      else
        item <- TrashItem row ;;
        items <- select_over_quota rest (current_size - file_size item) quota ;;
        Return (item :: items)
  end.

(** One turn of the removal loop: the world and whether the item counted. *)
Definition purge_item (e : env) (w : world) (item : item_row) : world * bool :=
  let trashed_path := trashed_path item in
  let removed :=
    ex <- Path_exists e (fs w) trashed_path ;;
    if ex then
      fs1 <- (if is_file (fs w) trashed_path then unlink e trashed_path (fs w)
              else rmtree e trashed_path (fs w)) ;;
      Return (rmdir_quiet e (path_parent trashed_path) fs1)
    else Return (fs w) in
  match removed with
  | Return fs2 =>
      (set_trash_items (delete_item (item_id item) (trash_items w)) (set_fs fs2 w),
       true)
  | Raise _ => (w, false)
  end.

Fixpoint purge_loop (e : env) (items : list item_row) (w : world)
  (purged_count : Z) : world * Z :=
  match items with
  | [] => (w, purged_count)
  | item :: rest =>
      let '(w1, ok) := purge_item e w item in
      purge_loop e rest w1 (if ok then purged_count + 1 else purged_count)
  end.

Definition truthy_int (o : option Z) : bool :=
  match o with Some n => negb (n =? 0) | None => false end.

(** [bool(x)] of a float: only the zeros are false. *)
Definition truthy_float (o : option pyfloat) : bool :=
  match o with
  | Some (Finite q) => negb (Qeq_bool q 0)
  | Some _ => true
  | None => false
  end.

Definition purge_select (e : env) (older_than : option Z)
  (size_quota : option pyfloat) (w : world)
  : result (list item_row) + purge_message :=
  if truthy_int older_than then
    let cutoff := now e 0%nat - seconds_per_day * default 0 older_than in
    let rows :=
      order_by (deletion_time_asc e)
        (List.filter (fun r => (deletion_time r <? cutoff) && negb (restored r))
                     (trash_items w)) in
    inl (TrashItems rows)
  else if truthy_float size_quota then
    let total_size := sum_file_size (not_restored (trash_items w)) in
    match quota_bytes (default NaN size_quota) with
    | Raise x => inl (Raise x)
    | Return quota =>
        if total_size <=? quota then inr WithinQuota
        else
          let rows :=
            order_by (deletion_time_asc e) (not_restored (trash_items w)) in
          inl (select_over_quota rows total_size quota)
    end
  else inr SpecifyPolicy.

Definition purge (e : env) (older_than : option Z) (size_quota : option pyfloat)
  (dry_run : bool) (w : world) : world * result purge_message :=
  match purge_select e older_than size_quota w with
  | inr m => (w, Return m)
  | inl (Raise x) => (w, Raise x)
  | inl (Return items_to_purge) =>
      match items_to_purge with
      | [] => (w, Return NoFilesToPurge)
      | _ =>
          if dry_run then (w, Return (WouldPurge (length items_to_purge)))
          else
            let '(w1, purged_count) := purge_loop e items_to_purge w 0 in
            (w1, Return (Purged purged_count))
      end
  end.

(** *** Trash.undo *)

(** The [try] block of [undo] for one item of a delete operation: the
    world and whether the item counted as restored. *)
Definition undo_item (e : env) (item_id : string) (item : item_row) (w : world)
  : world * bool :=
  let original_path := original_path item in
  match mkdir_parents (path_parent original_path) (fs w) with
  | Raise _ => (w, false)
  | Return fs1 =>
      match shutil_move e (trashed_path item) original_path fs1 with
      | Raise _ => (set_fs fs1 w, false)
      | Return fs2 =>
          (set_trash_items (mark_restored item_id (trash_items w))
                           (set_fs fs2 w),
           true)
      end
  end.

Fixpoint undo_items (e : env) (details : list string) (w : world)
  : world * result unit :=
  match details with
  | [] => (w, Return tt)
  | item_id :: rest =>
      match select_item item_id (trash_items w) with
      | None => undo_items e rest w
      | Some row =>
          match TrashItem row with
          | Raise x => (w, Raise x)
          | Return item => undo_items e rest (fst (undo_item e item_id item w))
          end
      end
  end.

Fixpoint undo_loop (e : env) (ops : list operation_row) (w : world)
  : world * result unit :=
  match ops with
  | [] => (w, Return tt)
  | op :: rest =>
      let '(w1, r) :=
        if String.eqb (operation_type op) "delete"
        then undo_items e (details op) w
        else (w, Return tt) in
      match r with
      | Raise x => (w1, Raise x)
      | Return _ =>
          undo_loop e rest
            (set_operations (mark_undone (op_id op) (operations w1)) w1)
      end
  end.

(** [SELECT * FROM operations WHERE undone = 0
     ORDER BY timestamp DESC LIMIT ?] *)
Definition select_undoable (e : env) (count : Z) (l : list operation_row)
  : list operation_row :=
  sql_limit count
    (order_by (timestamp_desc e) (List.filter (fun o => negb (undone o)) l)).

Definition undo (e : env) (count : Z) (w : world) : world * result unit :=
  match sqlite_int count with
  | Raise x => (w, Raise x)
  | Return count => undo_loop e (select_undoable e count (operations w)) w
  end.

(** *** Trash.verify *)


(** The names of the directories directly inside [d]. *)
Definition subdirs (d : string) (fs : filesystem) : list string :=
  omap (fun kv : string * node =>
          match kv.2 with
          | Dir => if String.eqb (path_parent kv.1) d && negb (String.eqb kv.1 d)
                   then Some (path_name kv.1) else None
          | File _ => None
          end) (map_to_list fs).

Fixpoint verify_orphans (e : env) (repair : bool) (names : list string)
  (f : filesystem) : filesystem :=
  match names with
  | [] => f
  | orphan_id :: rest =>
      let f1 :=
        if repair then
          match rmtree e (joinpath (files_dir e) orphan_id) f with
          | Return f' => f'
          | Raise _ => f
          end
        else f in
      verify_orphans e repair rest f1
  end.

Fixpoint verify_missing (e : env) (repair : bool) (rows : list item_row)
  (w : world) (issues : list issue) : world * result (list issue) :=
  match rows with
  | [] => (w, Return issues)
  | row :: rest =>
      match TrashItem row with
      | Raise x => (w, Raise x)
      | Return item =>
          match Path_exists e (fs w) (trashed_path item) with
          | Raise x => (w, Raise x)
          | Return false =>
              let w1 :=
                if repair
                then set_trash_items
                       (delete_item (item_id item) (trash_items w)) w
                else w in
              verify_missing e repair rest w1
                             (issues ++ [missing (item_id item)])
          | Return true => verify_missing e repair rest w issues
          end
      end
  end.

(** [{d.name for d in p.iterdir() if d.is_dir()}]: [iterdir] raises on
    what is not a directory, and [is_dir] is asked of every entry. *)
Definition iterdir_dirs (e : env) (d : string) (fs : filesystem)
  : result (list string) :=
  match fs !! d with
  | None => Raise FileNotFoundError
  | Some (File _) => Raise NotADirectoryError
  | Some Dir =>
      if existsb (fun kv : string * node =>
                    String.eqb (path_parent kv.1) d
                    && negb (String.eqb kv.1 d) && stat_fails e kv.1)
                 (map_to_list fs)
      then Raise PermissionError
      else Return (subdirs d fs)
  end.

Definition verify (e : env) (repair : bool) (w : world)
  : world * result (list issue) :=
  let db_ids := map item_id (not_restored (trash_items w)) in
  match (ex <- Path_exists e (fs w) (files_dir e) ;;
         if ex then iterdir_dirs e (files_dir e) (fs w) else Return []) with
  | Raise x => (w, Raise x)
  | Return disk_ids =>
      let orphans :=
        List.filter (fun n => negb (bool_decide (n ∈ db_ids))) disk_ids in
      let w1 := set_fs (verify_orphans e repair orphans (fs w)) w in
      verify_missing e repair (not_restored (trash_items w1)) w1
                     (map orphaned orphans)
  end.

(** *** Trash.config_set: [INSERT OR REPLACE INTO config] *)

Definition config_set (key value : string) (w : world) : world :=
  set_config (<[key := value]> (config w)) w.

(** *** Trash.list_items

    The value is [None] for "Trash is empty", and otherwise the items
    listed with the total size printed under them. *)


(** *** Trash.history

    The lines printed, as timestamp, operation type and undone mark;
    no line means "No operations in history". *)

Definition history (e : env) (limit : Z) (w : world)
  : result (list (Z * string * bool)) :=
  limit <- sqlite_int limit ;;
  Return (map (fun op => (timestamp op, operation_type op, undone op))
              (sql_limit limit (order_by (timestamp_desc e) (operations w)))).

(** *** Trash.config_get: the value printed, or [None] for "Key not
    found" *)

Definition config_get (key : string) (w : world) : option string :=
  config w !! key.

(** *** Trash._parse_time_expression

    [int] is Python's conversion of a string to an integer, which
    raises [ValueError] on anything that is not a numeral. *)

Definition _parse_time_expression (int : string -> option Z) (expr : string)
  : option Z :=
  if endswith_char expr "d" then int (drop_last expr)
  else if endswith_char expr "w" then (fun n => n * 7) <$> int (drop_last expr)
  else if endswith_char expr "m" then (fun n => n * 30) <$> int (drop_last expr)
  else if endswith_char expr "y" then (fun n => n * 365) <$> int (drop_last expr)
  else int expr.

End Trash.

(** ** The calls that change the store *)

Inductive command :=
  | Delete (filepath : string) (tags : list string) (reason : option string)
           (dry_run : bool)
  | Restore (pattern output : option string) (dry_run interactive : bool)
  | Empty (force dry_run : bool)
  | Purge (older_than : option Z) (size_quota : option pyfloat) (dry_run : bool)
  | Undo (count : Z)
  | Verify (repair : bool)
  | ConfigSet (key value : string).

Definition run (e : env) (c : command) (w : world) : world :=
  match c with
  | Delete filepath tags reason dry_run =>
      fst (Trash.delete e filepath tags reason dry_run w)
  | Restore pattern output dry_run interactive =>
      fst (Trash.restore e pattern output dry_run interactive w)
  | Empty force dry_run => fst (Trash.empty e force dry_run w)
  | Purge older_than size_quota dry_run =>
      fst (Trash.purge e older_than size_quota dry_run w)
  | Undo count => fst (Trash.undo e count w)
  | Verify repair => fst (Trash.verify e repair w)
  | ConfigSet key value => Trash.config_set key value w
  end.

(** * Properties *)

(** ** Definitions used in the statements *)

(** *** A small session used by the examples

    A home directory with three files, two of them with the same bytes,
    a trash created in it, and a system directory.  [session_env t u]
    is a call whose clock readings are all [t] and whose first fresh
    uuid is [u]; no system call fails, and rows with equal keys come
    back in rowid order. *)

Definition session_env (t : Z) (u : string) : env :=
  {| resolve := fun p => p;
     hexdigest := fun data => data;
     files_dir := "/home/u/.trashbin/files";
     now := fun _ => t;
     uuid4 := fun n => if Nat.eqb n 0 then u else u +:+ "'";
     answer := "";
     stat_fails := fun _ => false;
     read_fails := fun _ => false;
     move_fails := fun _ _ => false;
     remove_fails := fun _ => false;
     insert_fails := false;
     tie_items := fun _ _ => true;
     tie_operations := fun _ _ => true |}.

Definition home_fs : filesystem :=
  list_to_map
    [("/", Dir); ("/home", Dir); ("/home/u", Dir);
     ("/home/u/a.txt", File "alpha");
     ("/home/u/b.txt", File "beta");
     ("/home/u/copy.txt", File "alpha");
     ("/home/u/.trashbin", Dir); ("/home/u/.trashbin/files", Dir);
     ("/etc", Dir); ("/etc/passwd", File "root")].

Definition fresh_world : world :=
  {| fs := home_fs; trash_items := []; operations := []; config := ∅ |}.

(** The catalog after [a.txt] has been deleted once. *)
Definition after_first_delete : world :=
  fst (Trash.delete (session_env 1000 "id1") "/home/u/a.txt" [] None false
              fresh_world).

(** The row that delete wrote for [a.txt]. *)
Definition first_row : item_row :=
  {| item_id := "id1"; original_path := "/home/u/a.txt";
     trashed_path := "/home/u/.trashbin/files/id1/a.txt";
     deletion_time := 1000; file_size := 5; file_hash := "file_alpha";
     deletion_reason := None; tags := []; restored := false |}.

(** The trash after [a.txt] and then [b.txt] have been deleted, one
    second apart. *)
Definition after_two_deletes : world :=
  fst (Trash.delete (session_env 1001 "id2") "/home/u/b.txt" [] None false
                    after_first_delete).

(** The same two deletes, both within one second of the clock. *)
Definition after_two_deletes_same_second : world :=
  fst (Trash.delete (session_env 1000 "id2") "/home/u/b.txt" [] None false
                    after_first_delete).

(** The trash after [a.txt] was deleted and a new file was written at
    its original path. *)
Definition original_path_reoccupied : world :=
  set_fs (<["/home/u/a.txt" := File "newer"]> (fs after_first_delete))
         after_first_delete.

(** A catalog with one restored row and one row in the trash. *)
Definition second_row : item_row :=
  {| item_id := "id2"; original_path := "/home/u/b.txt";
     trashed_path := "/home/u/.trashbin/files/id2/b.txt";
     deletion_time := 1001; file_size := 4; file_hash := "file_beta";
     deletion_reason := None; tags := []; restored := false |}.

Definition one_restored : world :=
  set_trash_items [set_restored first_row; second_row] after_two_deletes.



(** *** The gate in the words of the specification *)

(** The gate as the specification words it: the path is one of the
    critical roots or lies below one of them. *)
Definition nested_under (root p : string) : bool := is_under root p.

Definition spec_protected (p : string) : bool :=
  existsb (fun root => String.eqb p root || nested_under root p) Trash.critical.

(** *** Counting and comparing *)

(** The regular files below the holding directory. *)
Definition holding_copies (e : env) (f : filesystem) : nat :=
  length (List.filter
            (fun kv : string * node =>
               match kv.2 with
               | File _ => is_under (files_dir e) kv.1
               | Dir => false
               end) (map_to_list f)).

(** A record of the operation log without its [undone] flag. *)
Definition op_key (o : operation_row) : Z * string * Z * list string :=
  (op_id o, operation_type o, timestamp o, details o).

(** The primary key of [trash_items]. *)
Definition unique_ids (l : list item_row) : Prop := List.NoDup (map item_id l).

(** Every restored row of [l] is still a row of [l']. *)
Definition keeps (l l' : list item_row) : Prop :=
  forall r, In r l -> restored r = true -> In r l'.

(** No row of [l] whose id is in [ids] is restored. *)
Definition unrestored_ids (ids : list string) (l : list item_row) : Prop :=
  forall r, In r l -> In (item_id r) ids -> restored r = false.

(** What the loops over selected rows maintain: restored rows of the
    catalog [l0] the call started from are kept, ids stay unique, and
    the rows still to be visited are not restored. *)
Record loop_invariant (ids : list string) (l0 l : list item_row) : Prop := {
  inv_keeps : keeps l0 l;
  inv_unique : unique_ids l;
  inv_unrestored : unrestored_ids ids l
}.

(** *** Further worlds and environments for the examples *)

(** The home directory with a directory of documents in it. *)
Definition docs_world : world :=
  set_fs (<["/home/u/docs" := Dir]>
            (<["/home/u/docs/notes.txt" := File "alpha"]> home_fs))
         fresh_world.

(** The same call with the INSERT of delete failing. *)
Definition with_insert_failure (e : env) : env :=
  {| resolve := resolve e; hexdigest := hexdigest e; files_dir := files_dir e;
     now := now e; uuid4 := uuid4 e; answer := answer e;
     stat_fails := stat_fails e; read_fails := read_fails e;
     move_fails := move_fails e; remove_fails := remove_fails e;
     insert_fails := true;
     tie_items := tie_items e; tie_operations := tie_operations e |}.

(** The trash after two deletes and a forced empty. *)
Definition emptied : world :=
  run (session_env 1500 "") (Empty true false) after_two_deletes.

(** The record delete wrote for [a.txt], and the log with it undone. *)
Definition first_record : operation_row :=
  {| op_id := 1; operation_type := "delete"; timestamp := 1000;
     details := ["id1"]; undone := false |}.

Definition first_undone : world :=
  set_operations [set_undone first_record] after_first_delete.

(** *** Predicates of the further properties *)

(** Every row of the catalog has a record of type [delete] in the log
    that names it. *)
Definition logged (w : world) : Prop :=
  forall r, In r (trash_items w) ->
    exists o, In o (operations w) /\ operation_type o = "delete"
              /\ details o = [item_id r].

(** The ids of [l'] are ids of [l]. *)
Definition ids_within (l l' : list item_row) : Prop :=
  forall r', In r' l' -> In (item_id r') (map item_id l).

(** The id delete draws for the item, and the holding path it moves the
    source to. *)
Definition new_item_id (e : env) (w : world) (filepath : string) : string :=
  uuid4 e (snd (Trash._calculate_hash e (fs w) (resolve e filepath))).

Definition holding_path (e : env) (w : world) (filepath : string) : string :=
  joinpath (joinpath (files_dir e) (new_item_id e w filepath))
           (path_name (resolve e filepath)).

(** Timestamps from newest to oldest. *)
Fixpoint newest_first (ts : list Z) : Prop :=
  match ts with
  | [] => True
  | t :: rest => (forall t', In t' rest -> t' <= t) /\ newest_first rest
  end.


(** ** The value of [TrashItem(row)] *)

Lemma TrashItem_raises row : TrashItem row = Raise AttributeError.
Proof. reflexivity. Qed.

Lemma TrashItem_returns row item : TrashItem row = Return item -> item = row.
Proof.
  unfold TrashItem. destruct (Row_getattr "get"); simpl; congruence.
Qed.

(** ** The protected-path gate *)

Lemma critical_cases (P : string -> Prop) :
  P "/" -> P "/bin" -> P "/sbin" -> P "/usr" -> P "/etc" -> P "/var" ->
  P "/boot" -> P "/sys" -> P "/proc" -> P "/dev" ->
  forall r, In r Trash.critical -> P r.
Proof.
  intros ? ? ? ? ? ? ? ? ? ? r Hr. unfold Trash.critical in Hr. simpl in Hr.
  repeat (destruct Hr as [<- | Hr]; [assumption |]). contradiction.
Qed.

Lemma is_critical_path_true e path r :
  In r Trash.critical ->
  String.eqb (resolve e path) r || startswith (resolve e path) (r +:+ "/") = true ->
  Trash._is_critical_path e path = true.
Proof.
  intros Hr H. unfold Trash._is_critical_path. apply existsb_exists. eauto.
Qed.

Lemma is_critical_path_false e path :
  (forall r, In r Trash.critical ->
     resolve e path <> r /\ startswith (resolve e path) (r +:+ "/") = false) ->
  Trash._is_critical_path e path = false.
Proof.
  intros H. unfold Trash._is_critical_path.
  destruct (existsb _ Trash.critical) eqn:E; [| reflexivity].
  apply existsb_exists in E as (r & Hr & Hc).
  destruct (H r Hr) as [Hne Hp]. rewrite Hp, orb_false_r in Hc.
  apply String.eqb_eq in Hc. contradiction.
Qed.

Lemma nested_under_startswith r p :
  r <> "/" -> nested_under r p = true -> startswith p (r +:+ "/") = true.
Proof.
  unfold nested_under, is_under. intros Hr H.
  destruct (String.eqb r "/") eqn:E.
  - apply String.eqb_eq in E. contradiction.
  - apply andb_true_iff in H as [H _]. exact H.
Qed.

(** [path.exists()] is the first thing [delete] does: when the [stat]
    of the path is refused the call raises there. *)
Lemma delete_stat_refused e filepath tags reason dry_run w :
  stat_fails e (resolve e filepath) = true ->
  Trash.delete e filepath tags reason dry_run w = (w, Raise PermissionError).
Proof. intros H. unfold Trash.delete, Path_exists. rewrite H. reflexivity. Qed.

Lemma delete_critical e filepath tags reason dry_run w :
  Trash._is_critical_path e filepath = true ->
  (exists m, Trash.delete e filepath tags reason dry_run w = (w, Return m)
             /\ delete_returns m = false)
  \/ (stat_fails e (resolve e filepath) = true
      /\ Trash.delete e filepath tags reason dry_run w
         = (w, Raise PermissionError)).
Proof.
  intros Hc. destruct (stat_fails e (resolve e filepath)) eqn:Es.
  - right. split; [reflexivity | now apply delete_stat_refused].
  - left. unfold Trash.delete, Path_exists. rewrite Es.
    destruct (path_exists (fs w) (resolve e filepath)).
    + rewrite Hc. exists CriticalPath. split; reflexivity.
    + exists NotFound. split; reflexivity.
Qed.

Lemma delete_not_critical e filepath tags reason dry_run w :
  Trash._is_critical_path e filepath = false ->
  snd (Trash.delete e filepath tags reason dry_run w) <> Return CriticalPath.
Proof.
  intros Hc. unfold Trash.delete. rewrite Hc.
  repeat (case_match; simpl; try discriminate).
Qed.

(** C1, as amended.  A delete whose argument resolves to one of the ten
    critical roots, or to a path below one of the nine roots other than
    [/], fails and leaves the file system and the catalog as they were:
    it returns [False], or, when the [stat] of the path is refused, it
    raises [PermissionError] at [path.exists()].  A delete whose resolved
    path is none of the roots and does not begin with a root followed by
    a slash (for the root [/] that prefix is [//]) is not stopped by the
    gate. *)
Theorem protected_gate e filepath tags reason dry_run w :
  ((exists r, In r Trash.critical /\
      (resolve e filepath = r \/
       (r <> "/" /\ nested_under r (resolve e filepath) = true))) ->
   (exists m, Trash.delete e filepath tags reason dry_run w = (w, Return m)
              /\ delete_returns m = false)
   \/ (stat_fails e (resolve e filepath) = true
       /\ Trash.delete e filepath tags reason dry_run w
          = (w, Raise PermissionError)))
  /\
  ((forall r, In r Trash.critical ->
      resolve e filepath <> r /\
      startswith (resolve e filepath) (r +:+ "/") = false) ->
   Trash._is_critical_path e filepath = false /\
   snd (Trash.delete e filepath tags reason dry_run w) <> Return CriticalPath).
Proof.
  split.
  - intros (r & Hr & H). apply delete_critical.
    apply (is_critical_path_true e filepath r Hr).
    destruct H as [-> | [Hne Hn]].
    + rewrite String.eqb_refl. reflexivity.
    + rewrite (nested_under_startswith _ _ Hne Hn). apply orb_true_r.
  - intros H. pose proof (is_critical_path_false e filepath H) as Hc.
    split; [exact Hc | apply delete_not_critical, Hc].
Qed.

Lemma protected_gate_witness :
  (exists m, Trash.delete (session_env 1000 "id1") "/etc/passwd" [] None false
                    fresh_world = (fresh_world, Return m)
             /\ delete_returns m = false)
  /\ Trash._is_critical_path (session_env 1000 "id1") "/home/u/a.txt" = false.
Proof.
  split.
  - destruct (proj1 (protected_gate (session_env 1000 "id1") "/etc/passwd"
                       [] None false fresh_world)) as [H | [H _]].
    + exists "/etc". split; [simpl; tauto |].
      right. split; [discriminate | reflexivity].
    + exact H.
    + discriminate H.
  - apply (proj2 (protected_gate (session_env 1000 "id1") "/home/u/a.txt"
                    [] None false fresh_world)).
    apply critical_cases; split; (discriminate || reflexivity).
Defined.

(** C1 as stated fails: [/home/u/a.txt] lies below the critical root [/],
    yet deleting it succeeds and moves the file. *)
Lemma protected_gate_counterexample :
  spec_protected "/home/u/a.txt" = true
  /\ snd (Trash.delete (session_env 1000 "id1") "/home/u/a.txt" [] None false
                 fresh_world) = Return Deleted
  /\ fs (fst (Trash.delete (session_env 1000 "id1") "/home/u/a.txt" [] None false
                     fresh_world)) !! "/home/u/a.txt" = None
  /\ length (trash_items
               (fst (Trash.delete (session_env 1000 "id1") "/home/u/a.txt" [] None
                            false fresh_world))) = 1%nat.
Proof. vm_compute. repeat split. Qed.

(** ** Deduplication *)

Lemma find_is_Some {A} (f : A -> bool) (l : list A) :
  (exists x, In x l /\ f x = true) -> is_Some (List.find f l).
Proof.
  intros (x & Hx & Hf). destruct (List.find f l) eqn:E; [eauto |].
  pose proof (find_none f l E x Hx). congruence.
Qed.

Lemma file_hash_is_file e f p h k :
  Trash._calculate_hash e f p = (h, k) -> startswith h "file_" = true ->
  is_file f p = true.
Proof.
  unfold Trash._calculate_hash, is_file.
  destruct (f !! p) as [[data |] |]; [reflexivity | |];
    intros [= <- <-]; simpl; discriminate.
Qed.

Lemma get_path_size_stat e f p n :
  Trash._get_path_size e f p = Return n -> stat_fails e p = false.
Proof.
  unfold Trash._get_path_size.
  destruct (stat_fails e p); [discriminate | reflexivity].
Qed.

Lemma unlink_file e p f :
  remove_fails e p = false -> is_file f p = true ->
  unlink e p f = Return (delete p f).
Proof.
  unfold unlink, is_file. intros ->.
  destruct (f !! p) as [[data |] |]; (reflexivity || discriminate).
Qed.

(** C2.  A delete that is not a dry run, of a source whose hash carries
    the [file_] prefix and is the hash of a catalog row that is not
    restored, unlinks the source and returns success; the catalog and
    the operation log are as before, and no path of the file system
    holds anything it did not hold before, so no holding copy is made.
    (A hash with the [file_] prefix is only computed for a regular file,
    so the removal is an unlink.) *)
Theorem delete_duplicate e filepath tags reason w size h k :
  path_exists (fs w) (resolve e filepath) = true ->
  Trash._is_critical_path e filepath = false ->
  Trash._get_path_size e (fs w) (resolve e filepath) = Return size ->
  Trash._calculate_hash e (fs w) (resolve e filepath) = (h, k) ->
  startswith h "file_" = true ->
  (exists r, In r (trash_items w) /\ file_hash r = h /\ restored r = false) ->
  remove_fails e (resolve e filepath) = false ->
  let w' := fst (Trash.delete e filepath tags reason false w) in
  snd (Trash.delete e filepath tags reason false w) = Return AlreadyInTrash
  /\ delete_returns AlreadyInTrash = true
  /\ fs w' = delete (resolve e filepath) (fs w)
  /\ fs w' !! resolve e filepath = None
  /\ (forall q n, fs w' !! q = Some n -> fs w !! q = Some n)
  /\ trash_items w' = trash_items w
  /\ operations w' = operations w.
Proof.
  intros Hex Hcrit Hsize Hhash Hpre (r & Hr & Hrh & Hrr) Hrm.
  assert (Hdel : Trash.delete e filepath tags reason false w =
                 (set_fs (delete (resolve e filepath) (fs w)) w,
                  Return AlreadyInTrash)).
  { unfold Trash.delete, Path_exists.
    rewrite (get_path_size_stat _ _ _ _ Hsize), Hex, Hcrit, Hsize, Hhash. simpl.
    assert (Hsel : is_Some (Trash.select_by_hash h (trash_items w))).
    { apply find_is_Some. exists r. split; [exact Hr |].
      rewrite Hrh, Hrr, String.eqb_refl. reflexivity. }
    rewrite (bool_decide_eq_true_2 _ Hsel), Hpre. simpl.
    rewrite (file_hash_is_file _ _ _ _ _ Hhash Hpre).
    rewrite (unlink_file _ _ _ Hrm (file_hash_is_file _ _ _ _ _ Hhash Hpre)).
    reflexivity. }
  simpl. rewrite Hdel. simpl. repeat split.
  - apply lookup_delete_eq.
  - intros q n Hq. apply lookup_delete_Some in Hq as [_ Hq]. exact Hq.
Qed.

Lemma after_first_delete_rows : trash_items after_first_delete = [first_row].
Proof. vm_compute. reflexivity. Qed.

Lemma delete_duplicate_witness :
  snd (Trash.delete (session_env 1001 "id2") "/home/u/copy.txt" [] None false
                    after_first_delete) = Return AlreadyInTrash
  /\ fs (fst (Trash.delete (session_env 1001 "id2") "/home/u/copy.txt" []
                           None false after_first_delete))
     !! "/home/u/copy.txt" = None
  /\ trash_items (fst (Trash.delete (session_env 1001 "id2")
                         "/home/u/copy.txt" [] None false after_first_delete))
     = trash_items after_first_delete.
Proof.
  destruct (delete_duplicate (session_env 1001 "id2") "/home/u/copy.txt"
              [] None after_first_delete 5 "file_alpha" 0%nat)
    as (H1 & _ & _ & H4 & _ & H6 & _).
  - vm_compute. reflexivity.
  - vm_compute. reflexivity.
  - vm_compute. reflexivity.
  - vm_compute. reflexivity.
  - vm_compute. reflexivity.
  - exists first_row. rewrite after_first_delete_rows.
    split; [left; reflexivity | split; reflexivity].
  - reflexivity.
  - repeat split; assumption.
Defined.

(** C3 on the code: after two files with the same bytes have been
    deleted one after the other, both calls having returned success, the
    second source is gone and one holding copy exists, but the catalog
    holds one row, not two. *)
Theorem identical_content_leaves_one_row :
  let e1 := session_env 1000 "id1" in
  let e2 := session_env 1001 "id2" in
  let r1 := Trash.delete e1 "/home/u/a.txt" [] None false fresh_world in
  let r2 := Trash.delete e2 "/home/u/copy.txt" [] None false (fst r1) in
  snd r1 = Return Deleted
  /\ snd r2 = Return AlreadyInTrash
  /\ fs (fst r2) !! "/home/u/copy.txt" = None
  /\ holding_copies e2 (fs (fst r2)) = 1%nat
  /\ map file_hash (trash_items (fst r2)) = ["file_alpha"].
Proof. vm_compute. repeat split. Qed.

(** ** Purge *)

(** C6 on the code: [purge(older_than=0)] takes neither policy branch,
    because [0] is false in [if older_than:]; it reports that a policy
    must be given and removes nothing, whatever the trash holds.  Here
    the trash holds one item that is not restored, and it stays. *)
Theorem purge_older_than_zero_removes_nothing :
  let e := session_env 5000 "" in
  Trash.purge e (Some 0) None false after_first_delete
  = (after_first_delete, Return SpecifyPolicy)
  /\ map original_path (not_restored (trash_items after_first_delete))
     = ["/home/u/a.txt"].
Proof. vm_compute. split; reflexivity. Qed.

Lemma purge_zero_is_no_policy e dry_run w :
  Trash.purge e (Some 0) None dry_run w = (w, Return SpecifyPolicy).
Proof. reflexivity. Qed.

Lemma filter_nil {A} (f : A -> bool) (l : list A) :
  (forall x, In x l -> f x = false) -> List.filter f l = [].
Proof.
  induction l as [| a l IH]; intros H; simpl; [reflexivity |].
  rewrite (H a (or_introl eq_refl)). apply IH. intros x Hx. apply H. now right.
Qed.

(** The other half of the boundary holds: a number of days that reaches
    back before every item selects no row, and nothing is removed. *)
Lemma purge_older_than_all_removes_nothing e n dry_run w :
  n <> 0 ->
  (forall r, In r (trash_items w) -> restored r = false ->
             now e 0%nat - Trash.seconds_per_day * n <= deletion_time r) ->
  Trash.purge e (Some n) None dry_run w = (w, Return NoFilesToPurge).
Proof.
  intros Hn Hall. unfold Trash.purge, Trash.purge_select. simpl.
  destruct (n =? 0) eqn:E; [apply Z.eqb_eq in E; contradiction |]. simpl.
  rewrite filter_nil; [reflexivity |].
  intros r Hr. destruct (restored r) eqn:Er; [apply andb_false_r |].
  rewrite andb_true_r. apply Z.ltb_ge. apply Hall; assumption.
Qed.

(** C5 on the code: the trash holds 9 bytes and the quota is 4 bytes
    (2^-28 GB), so the oldest item should go.  The selection loop raises
    [AttributeError] when it wraps the first row in a [TrashItem];
    nothing is removed and the trash stays over the quota. *)
Theorem purge_over_quota_raises :
  let e := session_env 5000 "" in
  let q := Finite (1 # 268435456) in
  let r := Trash.purge e None (Some q) false after_two_deletes in
  Trash.quota_bytes q = Return 4
  /\ sum_file_size (not_restored (trash_items after_two_deletes)) = 9
  /\ r = (after_two_deletes, Raise AttributeError)
  /\ sum_file_size (not_restored (trash_items (fst r))) = 9.
Proof. vm_compute. repeat split. Qed.

Lemma insert_by_perm {A} (before : A -> A -> bool) x l :
  Permutation (insert_by before x l) (x :: l).
Proof.
  induction l as [| y l IH]; simpl; [reflexivity |].
  destruct (before x y); [reflexivity |].
  rewrite IH. apply perm_swap.
Qed.

Lemma order_by_perm {A} (before : A -> A -> bool) l :
  Permutation (order_by before l) l.
Proof.
  induction l as [| x l IH]; simpl; [reflexivity |].
  rewrite insert_by_perm. now apply perm_skip.
Qed.

Lemma order_by_nonempty {A} (before : A -> A -> bool) (l : list A) :
  l <> [] -> order_by before l <> [].
Proof.
  destruct l as [| x l]; [congruence |]. intros _. simpl.
  destruct (order_by before l) as [| y l']; simpl; [discriminate |].
  destruct (before x y); discriminate.
Qed.

(** Every quota purge of a trash that is over its quota ends this way. *)
Lemma purge_over_quota_always_raises e q quota dry_run w :
  Trash.truthy_float (Some q) = true ->
  Trash.quota_bytes q = Return quota ->
  quota < sum_file_size (not_restored (trash_items w)) ->
  not_restored (trash_items w) <> [] ->
  Trash.purge e None (Some q) dry_run w = (w, Raise AttributeError).
Proof.
  intros Hq Hquota Hover Hne. unfold Trash.purge, Trash.purge_select.
  cbn [Trash.truthy_int]. rewrite Hq.
  change (default NaN (Some q)) with q. rewrite Hquota.
  destruct (_ <=? _) eqn:E; [apply Z.leb_le in E; lia |].
  pose proof (order_by_nonempty (deletion_time_asc e) _ Hne) as Hrows.
  destruct (order_by (deletion_time_asc e) _) as [| row rows]; [congruence |].
  cbn [Trash.select_over_quota]. rewrite E, TrashItem_raises. reflexivity.
Qed.

(** A quota that is not a number, or too large for a float once it is
    in bytes, makes [int(...)] raise; nothing is changed. *)
Lemma purge_quota_not_a_number e q x dry_run w :
  Trash.truthy_float (Some q) = true ->
  Trash.quota_bytes q = Raise x ->
  Trash.purge e None (Some q) dry_run w = (w, Raise x).
Proof.
  intros Hq Hquota. unfold Trash.purge, Trash.purge_select.
  cbn [Trash.truthy_int]. rewrite Hq.
  change (default NaN (Some q)) with q. now rewrite Hquota.
Qed.

(** ** Undo *)

(** C4 on the code: [a.txt] is deleted, then [b.txt]; [undo(1)] selects
    the operation of [b.txt] but raises [AttributeError] when it wraps
    the catalog row in a [TrashItem].  Nothing is moved back: [b.txt] is
    still absent from its original path, still in the holding area and
    still not restored, and the operation is still not undone. *)
Theorem undo_one_restores_nothing :
  let e := session_env 1002 "" in
  let r := Trash.undo e 1 after_two_deletes in
  map details (Trash.select_undoable e 1 (operations after_two_deletes))
  = [["id2"]]
  /\ r = (after_two_deletes, Raise AttributeError)
  /\ fs (fst r) !! "/home/u/b.txt" = None
  /\ fs (fst r) !! "/home/u/.trashbin/files/id2/b.txt" = Some (File "beta")
  /\ map restored (trash_items (fst r)) = [false; false]
  /\ map undone (operations (fst r)) = [false; false].
Proof. vm_compute. repeat split. Qed.

(** Every undo of a delete whose item is still in the catalog ends this
    way. *)
Lemma undo_items_raises e i rest row w :
  select_item i (trash_items w) = Some row ->
  Trash.undo_items e (i :: rest) w = (w, Raise AttributeError).
Proof.
  intros H. cbn [Trash.undo_items]. rewrite H, TrashItem_raises. reflexivity.
Qed.

(** The order of [undo] is by [timestamp], in whole seconds.  When both
    deletes fall in the same second the rows tie; when SQLite returns
    tied rows in rowid order, as its sorter does for this query, the
    operation selected by [undo(1)] is the older one. *)
Lemma undo_one_selects_older_on_tie :
  map details
      (Trash.select_undoable (session_env 1002 "") 1
         (operations after_two_deletes_same_second))
  = [["id1"]].
Proof. vm_compute. reflexivity. Qed.

(** The part of the claim about the selection holds: the operations
    [undo] looks at are operations of the log that are not undone, at
    most [count] of them, and in descending order of timestamp. *)
Lemma select_undoable_not_undone e count l o :
  In o (Trash.select_undoable e count l) -> In o l /\ undone o = false.
Proof.
  unfold Trash.select_undoable, sql_limit. intros H.
  assert (Hin : In o (order_by (timestamp_desc e)
                        (List.filter (fun o => negb (undone o)) l))).
  { destruct (count <? 0); [exact H |].
    rewrite <- (firstn_skipn (Z.to_nat count)). apply in_or_app. now left. }
  apply (Permutation_in _ (order_by_perm _ _)) in Hin.
  apply filter_In in Hin as [Hin Hu]. now apply negb_true_iff in Hu.
Qed.

Lemma select_undoable_length e count l :
  0 <= count ->
  (length (Trash.select_undoable e count l) <= Z.to_nat count)%nat.
Proof.
  intros Hc. unfold Trash.select_undoable, sql_limit.
  destruct (count <? 0) eqn:E; [apply Z.ltb_lt in E; lia |].
  apply firstn_le_length.
Qed.

(** ** Undo and restore onto an occupied path *)

Lemma ensure_dir_keeps r d f1 k n :
  ensure_dir r d = Return f1 ->
  (forall f, r = Return f -> f !! k = Some n) -> f1 !! k = Some n.
Proof.
  unfold ensure_dir. destruct r as [f | x]; simpl; [| discriminate].
  intros H Hk. specialize (Hk f eq_refl).
  destruct (f !! d) as [[data |] |] eqn:E; try discriminate.
  - injection H as <-. exact Hk.
  - injection H as <-. rewrite lookup_insert_ne; [exact Hk |].
    intros ->. congruence.
Qed.

Lemma fold_ensure_dir_keeps ds r f1 k n :
  fold_left ensure_dir ds r = Return f1 ->
  (forall f, r = Return f -> f !! k = Some n) -> f1 !! k = Some n.
Proof.
  revert r. induction ds as [| d ds IH]; intros r H Hk; simpl in H.
  - apply (Hk f1 H).
  - apply (IH _ H). intros f Hf. apply (ensure_dir_keeps _ _ _ _ _ Hf Hk).
Qed.

Lemma mkdir_parents_keeps p f f1 k n :
  mkdir_parents p f = Return f1 -> f !! k = Some n -> f1 !! k = Some n.
Proof.
  unfold mkdir_parents. intros H Hk.
  apply (fold_ensure_dir_keeps _ _ _ _ _ H). intros f' [= <-]. exact Hk.
Qed.

(** What the [try] block of [undo] does when it is given an item: the
    trashed file is moved onto the original path, and a regular file
    that was there is replaced. *)
Lemma undo_item_replaces e i item w data old :
  fs w !! trashed_path item = Some (File data) ->
  fs w !! original_path item = Some (File old) ->
  returned (mkdir_parents (path_parent (original_path item)) (fs w)) = true ->
  move_fails e (trashed_path item) (original_path item) = false ->
  snd (Trash.undo_item e i item w) = true
  /\ fs (fst (Trash.undo_item e i item w)) !! original_path item
     = Some (File data).
Proof.
  intros Ht Ho Hmk Hmv. unfold Trash.undo_item.
  destruct (mkdir_parents _ (fs w)) as [f1 | x] eqn:E; [| discriminate].
  pose proof (mkdir_parents_keeps _ _ _ _ _ E Ht) as Ht1.
  pose proof (mkdir_parents_keeps _ _ _ _ _ E Ho) as Ho1.
  unfold shutil_move, is_dir, os_rename. rewrite Hmv, Ho1, Ht1. simpl.
  split; [reflexivity | apply lookup_insert_eq].
Qed.

(** What the loop body of [restore] does when it is given an item whose
    target exists: nothing. *)
Lemma restore_item_skips e output item w :
  Path_exists e (fs w)
    (match output with
     | Some out => joinpath out (path_name (original_path item))
     | None => original_path item
     end) = Return true ->
  Trash.restore_item e output false item w = (w, Return false).
Proof. intros H. unfold Trash.restore_item. rewrite H. reflexivity. Qed.

(** C9 on the code: with the original path occupied, neither call gets
    as far as the path.  [undo] and [restore] both raise
    [AttributeError] when they wrap the catalog row in a [TrashItem];
    the file at the original path is not replaced, the item is not
    restored and the operation is not marked undone. *)
Theorem undo_and_restore_raise_before_moving :
  let e := session_env 1002 "" in
  let u := Trash.undo e 1 original_path_reoccupied in
  let r := Trash.restore e (Some "a.txt") None false false
                         original_path_reoccupied in
  u = (original_path_reoccupied, Raise AttributeError)
  /\ r = (original_path_reoccupied, Raise AttributeError)
  /\ fs (fst u) !! "/home/u/a.txt" = Some (File "newer")
  /\ fs (fst u) !! "/home/u/.trashbin/files/id1/a.txt" = Some (File "alpha")
  /\ map restored (trash_items (fst u)) = [false]
  /\ map undone (operations (fst u)) = [false].
Proof. vm_compute. repeat split. Qed.

(** Every restore that matches a row ends this way. *)
Lemma restore_match_raises e pattern output dry_run w :
  pattern <> "" ->
  List.filter (fun r => sql_like (original_path r) ("%" +:+ pattern +:+ "%")
                        && negb (restored r)) (trash_items w) <> [] ->
  Trash.restore e (Some pattern) output dry_run false w
  = (w, Raise AttributeError).
Proof.
  intros Hp Hne. unfold Trash.restore.
  destruct (String.eqb pattern "") eqn:E;
    [apply String.eqb_eq in E; contradiction |].
  pose proof (order_by_nonempty (deletion_time_desc e) _ Hne) as Hrows.
  destruct (order_by (deletion_time_desc e) _) as [| row rows];
    [congruence |].
  cbn [Trash.restore_loop]. rewrite TrashItem_raises. reflexivity.
Qed.

(** ** The operation log

    From here on [TrashItem] is not unfolded: the proofs below hold
    whatever its value, given that an item it returns is the row. *)

Opaque TrashItem.

Lemma op_key_mark_undone i l :
  map op_key (mark_undone i l) = map op_key l.
Proof.
  unfold mark_undone. rewrite map_map. apply map_ext.
  intros o. destruct (op_id o =? i); reflexivity.
Qed.

Lemma delete_log e filepath tags reason dry_run w :
  (snd (Trash.delete e filepath tags reason dry_run w) = Return Deleted
   /\ dry_run = false
   /\ exists i,
        operations (fst (Trash.delete e filepath tags reason dry_run w))
        = operations w ++
            [{| op_id := Trash.next_op_id (operations w);
                operation_type := "delete"; timestamp := now e 1%nat;
                details := [i]; undone := false |}])
  \/ (snd (Trash.delete e filepath tags reason dry_run w) <> Return Deleted
      /\ operations (fst (Trash.delete e filepath tags reason dry_run w))
         = operations w).
Proof.
  unfold Trash.delete.
  repeat (case_match; simpl; try (right; split; [discriminate | reflexivity])).
  all: left; split; [reflexivity |]; split; [reflexivity |]; eexists; reflexivity.
Qed.

Lemma restore_item_operations e output dry_run item w :
  operations (fst (Trash.restore_item e output dry_run item w)) = operations w.
Proof. unfold Trash.restore_item. repeat (case_match; simpl); reflexivity. Qed.

Lemma restore_loop_operations e output dry_run items w n :
  operations (fst (Trash.restore_loop e output dry_run items w n))
  = operations w.
Proof.
  revert w n. induction items as [| row rest IH]; intros w n; simpl.
  - reflexivity.
  - destruct (TrashItem row) as [item | x]; simpl; [| reflexivity].
    pose proof (restore_item_operations e output dry_run item w) as H.
    destruct (Trash.restore_item e output dry_run item w) as [w1 [ok | x]];
      simpl in *; [rewrite IH |]; exact H.
Qed.

Lemma restore_operations e pattern output dry_run interactive w :
  operations (fst (Trash.restore e pattern output dry_run interactive w))
  = operations w.
Proof.
  unfold Trash.restore.
  destruct interactive; [reflexivity |].
  destruct pattern as [pattern |]; [| reflexivity].
  destruct (String.eqb pattern ""); [reflexivity |].
  destruct (order_by _ _) as [| row rows] eqn:E; [reflexivity |].
  apply restore_loop_operations.
Qed.

Lemma empty_operations e force dry_run w :
  operations (fst (Trash.empty e force dry_run w)) = operations w.
Proof. unfold Trash.empty. repeat (case_match; simpl); reflexivity. Qed.

Lemma purge_item_operations e w item :
  operations (fst (Trash.purge_item e w item)) = operations w.
Proof. unfold Trash.purge_item. repeat (case_match; simpl); reflexivity. Qed.

Lemma purge_loop_operations e items w n :
  operations (fst (Trash.purge_loop e items w n)) = operations w.
Proof.
  revert w n. induction items as [| item rest IH]; intros w n; simpl.
  - reflexivity.
  - pose proof (purge_item_operations e w item) as H.
    destruct (Trash.purge_item e w item) as [w1 ok]; simpl in *.
    rewrite IH. exact H.
Qed.

Lemma purge_operations e older_than size_quota dry_run w :
  operations (fst (Trash.purge e older_than size_quota dry_run w))
  = operations w.
Proof.
  unfold Trash.purge.
  destruct (Trash.purge_select e older_than size_quota w) as [[items | x] | m];
    simpl; try reflexivity.
  destruct items as [| item rest]; [reflexivity |].
  destruct dry_run; [reflexivity |].
  pose proof (purge_loop_operations e (item :: rest) w 0) as H.
  destruct (Trash.purge_loop e (item :: rest) w 0) as [w1 n]. exact H.
Qed.

Lemma undo_item_operations e i item w :
  operations (fst (Trash.undo_item e i item w)) = operations w.
Proof. unfold Trash.undo_item. repeat (case_match; simpl); reflexivity. Qed.

Lemma undo_items_operations e ids w :
  operations (fst (Trash.undo_items e ids w)) = operations w.
Proof.
  revert w. induction ids as [| i rest IH]; intros w; simpl.
  - reflexivity.
  - destruct (select_item i (trash_items w)) as [row |]; [| apply IH].
    destruct (TrashItem row) as [item | x]; simpl; [| reflexivity].
    rewrite IH. apply undo_item_operations.
Qed.

Lemma undo_loop_operations e ops w :
  map op_key (operations (fst (Trash.undo_loop e ops w)))
  = map op_key (operations w).
Proof.
  revert w. induction ops as [| op rest IH]; intros w; simpl.
  - reflexivity.
  - destruct (String.eqb (operation_type op) "delete").
    + pose proof (undo_items_operations e (details op) w) as H.
      destruct (Trash.undo_items e (details op) w) as [w1 [u | x]];
        simpl in *; [| now rewrite H].
      rewrite IH. simpl. rewrite op_key_mark_undone. now rewrite H.
    + rewrite IH. simpl. apply op_key_mark_undone.
Qed.

Lemma verify_missing_operations e repair rows w issues :
  operations (fst (Trash.verify_missing e repair rows w issues))
  = operations w.
Proof.
  revert w issues. induction rows as [| row rest IH]; intros w issues; simpl.
  - reflexivity.
  - destruct (TrashItem row) as [item | x]; simpl; [| reflexivity].
    repeat (case_match; simpl); rewrite ?IH; reflexivity.
Qed.

Lemma verify_operations e repair w :
  operations (fst (Trash.verify e repair w)) = operations w.
Proof.
  unfold Trash.verify. destruct (bind _ _) as [disk_ids | x]; [| reflexivity].
  rewrite verify_missing_operations. reflexivity.
Qed.

Lemma undo_operations e count w :
  map op_key (operations (fst (Trash.undo e count w)))
  = map op_key (operations w).
Proof.
  unfold Trash.undo.
  destruct (sqlite_int count); [apply undo_loop_operations | reflexivity].
Qed.

(** C8.  Whatever call is made, the operation log afterwards either has
    the same records as before (only [undone] flags may differ), or the
    call was a delete that was not a dry run and ended with "Deleted"
    (so neither failed nor deduplicated), and the log has exactly one
    more record, of type [delete], naming the new item.  Purge and empty
    leave the log exactly as it was. *)
Theorem operation_log_appended_only_by_delete e c w :
  (map op_key (operations (run e c w)) = map op_key (operations w)
   \/ exists filepath tags reason i,
        c = Delete filepath tags reason false
        /\ snd (Trash.delete e filepath tags reason false w) = Return Deleted
        /\ delete_returns Deleted = true
        /\ operations (run e c w)
           = operations w ++
               [{| op_id := Trash.next_op_id (operations w);
                   operation_type := "delete"; timestamp := now e 1%nat;
                   details := [i]; undone := false |}])
  /\ (forall older_than size_quota dry_run,
        c = Purge older_than size_quota dry_run ->
        operations (run e c w) = operations w)
  /\ (forall force dry_run,
        c = Empty force dry_run -> operations (run e c w) = operations w).
Proof.
  split; [| split].
  - destruct c as [filepath tags reason dry_run | pattern output dry_run inter
                  | force dry_run | older_than size_quota dry_run | count
                  | repair | key value]; simpl.
    + destruct (delete_log e filepath tags reason dry_run w)
        as [(Hr & -> & i & Hops) | [_ Hops]].
      * right. exists filepath, tags, reason, i. repeat split; assumption.
      * left. now rewrite Hops.
    + left. now rewrite restore_operations.
    + left. now rewrite empty_operations.
    + left. now rewrite purge_operations.
    + left. apply undo_operations.
    + left. now rewrite verify_operations.
    + left. reflexivity.
  - intros older_than size_quota dry_run ->. apply purge_operations.
  - intros force dry_run ->. apply empty_operations.
Qed.

(** ** The restored flag *)

Lemma keeps_refl l : keeps l l.
Proof. intros r Hr _. exact Hr. Qed.

Lemma keeps_trans l1 l2 l3 : keeps l1 l2 -> keeps l2 l3 -> keeps l1 l3.
Proof. intros H12 H23 r Hr Hres. apply H23; [apply H12 |]; assumption. Qed.

Lemma set_restored_id r : restored r = true -> set_restored r = r.
Proof. destruct r; simpl. intros ->. reflexivity. Qed.

Lemma keeps_mark i l : keeps l (mark_restored i l).
Proof.
  intros r Hr Hres. unfold mark_restored. apply in_map_iff. exists r.
  split; [| exact Hr].
  destruct (String.eqb (item_id r) i); [apply set_restored_id, Hres | reflexivity].
Qed.

Lemma keeps_delete i l :
  (forall r, In r l -> item_id r = i -> restored r = false) ->
  keeps l (delete_item i l).
Proof.
  intros H r Hr Hres. unfold delete_item. apply filter_In. split; [exact Hr |].
  destruct (String.eqb (item_id r) i) eqn:E; [| reflexivity].
  apply String.eqb_eq in E. rewrite (H r Hr E) in Hres. discriminate.
Qed.

Lemma ids_mark i l : map item_id (mark_restored i l) = map item_id l.
Proof.
  unfold mark_restored. rewrite map_map. apply map_ext.
  intros r. destruct (String.eqb (item_id r) i); reflexivity.
Qed.

Lemma NoDup_map_filter {A B} (g : A -> B) (f : A -> bool) (l : list A) :
  List.NoDup (map g l) -> List.NoDup (map g (List.filter f l)).
Proof.
  induction l as [| a l IH]; simpl; intros H; [constructor |].
  apply NoDup_cons_iff in H as [Hn Hd].
  destruct (f a); simpl; [| apply IH, Hd].
  apply NoDup_cons_iff. split; [| apply IH, Hd].
  intros Hin. apply Hn. apply in_map_iff in Hin as (x & Hx & Hin).
  apply filter_In in Hin as [Hin _]. apply in_map_iff. eauto.
Qed.

Lemma NoDup_map_eq {A B} (g : A -> B) (l : list A) x y :
  List.NoDup (map g l) -> In x l -> In y l -> g x = g y -> x = y.
Proof.
  induction l as [| a l IH]; simpl; intros H Hx Hy Hg; [contradiction |].
  apply NoDup_cons_iff in H as [Hn Hd].
  destruct Hx as [-> | Hx], Hy as [-> | Hy].
  - reflexivity.
  - exfalso. apply Hn. rewrite Hg. apply in_map, Hy.
  - exfalso. apply Hn. rewrite <- Hg. apply in_map, Hx.
  - apply IH; assumption.
Qed.

Lemma unique_delete i l : unique_ids l -> unique_ids (delete_item i l).
Proof. apply NoDup_map_filter. Qed.

Lemma unique_mark i l : unique_ids l -> unique_ids (mark_restored i l).
Proof. unfold unique_ids. now rewrite ids_mark. Qed.

Lemma unrestored_weaken i ids l :
  unrestored_ids (i :: ids) l -> unrestored_ids ids l.
Proof. intros H r Hr Hi. apply (H r Hr). now right. Qed.

Lemma unrestored_delete ids i l :
  unrestored_ids ids l -> unrestored_ids ids (delete_item i l).
Proof.
  intros H r Hr Hi. apply filter_In in Hr as [Hr _]. apply (H r Hr Hi).
Qed.

Lemma unrestored_mark ids i l :
  ~ In i ids -> unrestored_ids ids l -> unrestored_ids ids (mark_restored i l).
Proof.
  intros Hni H r Hr Hi. unfold mark_restored in Hr.
  apply in_map_iff in Hr as (r0 & Hr0 & Hin).
  destruct (String.eqb (item_id r0) i) eqn:E.
  - apply String.eqb_eq in E. subst r. simpl in Hi. rewrite E in Hi.
    contradiction.
  - subst r0. apply (H r Hin Hi).
Qed.

Lemma step_same i ids l0 l :
  loop_invariant (i :: ids) l0 l -> loop_invariant ids l0 l.
Proof.
  intros [Hk Hu Hn]. split; [exact Hk | exact Hu |].
  apply (unrestored_weaken _ _ _ Hn).
Qed.

Lemma step_delete i ids l0 l :
  loop_invariant (i :: ids) l0 l -> loop_invariant ids l0 (delete_item i l).
Proof.
  intros [Hk Hu Hn]. split.
  - apply (keeps_trans _ _ _ Hk). apply keeps_delete.
    intros r Hr Hi. apply (Hn r Hr). now left.
  - apply unique_delete, Hu.
  - apply unrestored_delete, (unrestored_weaken _ _ _ Hn).
Qed.

Lemma step_mark i ids l0 l :
  ~ In i ids ->
  loop_invariant (i :: ids) l0 l -> loop_invariant ids l0 (mark_restored i l).
Proof.
  intros Hni [Hk Hu Hn]. split.
  - apply (keeps_trans _ _ _ Hk), keeps_mark.
  - apply unique_mark, Hu.
  - apply unrestored_mark; [exact Hni | apply (unrestored_weaken _ _ _ Hn)].
Qed.

(** *** Selections *)

Lemma selection_invariant (before : item_row -> item_row -> bool)
  (f : item_row -> bool) l :
  unique_ids l ->
  (forall r, f r = true -> restored r = false) ->
  let rows := order_by before (List.filter f l) in
  List.NoDup (map item_id rows) /\ loop_invariant (map item_id rows) l l.
Proof.
  intros Hu Hf rows.
  assert (Hp : Permutation rows (List.filter f l)) by apply order_by_perm.
  split.
  - apply (Permutation_NoDup (l := map item_id (List.filter f l))).
    + symmetry. apply Permutation_map, Hp.
    + apply NoDup_map_filter, Hu.
  - split; [apply keeps_refl | exact Hu |].
    intros r Hr Hi. apply in_map_iff in Hi as (row & Hid & Hrow).
    apply (Permutation_in _ Hp) in Hrow. apply filter_In in Hrow as [Hrow Hfr].
    rewrite (NoDup_map_eq item_id l r row Hu Hr Hrow (eq_sym Hid)).
    apply Hf, Hfr.
Qed.

(** *** The loops *)

Lemma invariant_nil ids l0 l :
  loop_invariant ids l0 l -> loop_invariant [] l0 l.
Proof. intros [Hk Hu _]. split; [exact Hk | exact Hu |]. intros r _ []. Qed.

Lemma invariant_incl ids ids' l0 l :
  incl ids' ids -> loop_invariant ids l0 l -> loop_invariant ids' l0 l.
Proof.
  intros Hi [Hk Hu Hn]. split; [exact Hk | exact Hu |].
  intros r Hr Hin. apply (Hn r Hr), Hi, Hin.
Qed.

Lemma restore_item_items e output dry_run item w :
  let l := trash_items w in
  let l' := trash_items (fst (Trash.restore_item e output dry_run item w)) in
  l' = l \/ l' = delete_item (item_id item) l
  \/ l' = mark_restored (item_id item) l.
Proof.
  unfold Trash.restore_item. repeat (case_match; simpl); tauto.
Qed.

Lemma restore_loop_items e output dry_run items w n l0 :
  List.NoDup (map item_id items) ->
  loop_invariant (map item_id items) l0 (trash_items w) ->
  loop_invariant [] l0
    (trash_items (fst (Trash.restore_loop e output dry_run items w n))).
Proof.
  revert w n. induction items as [| row rest IH]; intros w n Hnd Hinv; simpl.
  - exact Hinv.
  - simpl in Hnd, Hinv. apply NoDup_cons_iff in Hnd as [Hni Hnd].
    destruct (TrashItem row) as [item | x] eqn:E; simpl.
    2:{ apply (invariant_nil _ _ _ Hinv). }
    apply TrashItem_returns in E. subst item.
    pose proof (restore_item_items e output dry_run row w) as H. simpl in H.
    destruct (Trash.restore_item e output dry_run row w) as [w1 r]; simpl in H.
    assert (Hinv1 : loop_invariant (map item_id rest) l0 (trash_items w1)).
    { destruct H as [-> | [-> | ->]].
      - apply (step_same _ _ _ _ Hinv).
      - apply (step_delete _ _ _ _ Hinv).
      - apply (step_mark _ _ _ _ Hni Hinv). }
    destruct r as [ok | x]; simpl.
    + apply IH; assumption.
    + apply (invariant_nil _ _ _ Hinv1).
Qed.

Lemma purge_item_items e w item :
  let l := trash_items w in
  let l' := trash_items (fst (Trash.purge_item e w item)) in
  l' = l \/ l' = delete_item (item_id item) l.
Proof.
  unfold Trash.purge_item. repeat (case_match; simpl); tauto.
Qed.

Lemma purge_loop_items e items w n l0 :
  loop_invariant (map item_id items) l0 (trash_items w) ->
  loop_invariant [] l0 (trash_items (fst (Trash.purge_loop e items w n))).
Proof.
  revert w n. induction items as [| item rest IH]; intros w n Hinv; simpl.
  - exact Hinv.
  - pose proof (purge_item_items e w item) as H. simpl in H, Hinv.
    destruct (Trash.purge_item e w item) as [w1 ok]; simpl in H.
    apply IH. destruct H as [-> | ->].
    + apply (step_same _ _ _ _ Hinv).
    + apply (step_delete _ _ _ _ Hinv).
Qed.

Lemma TrashItems_returns rows items :
  Trash.TrashItems rows = Return items -> items = rows.
Proof.
  revert items. induction rows as [| row rest IH]; intros items; simpl.
  - intros [= <-]. reflexivity.
  - destruct (TrashItem row) as [item | x] eqn:E; simpl; [| discriminate].
    destruct (Trash.TrashItems rest) as [items' | x]; simpl; [| discriminate].
    intros [= <-]. apply TrashItem_returns in E. subst item.
    now rewrite (IH items' eq_refl).
Qed.

Lemma select_over_quota_returns rows current quota items :
  Trash.select_over_quota rows current quota = Return items ->
  incl items rows.
Proof.
  revert current items.
  induction rows as [| row rest IH]; intros current items; simpl.
  - intros [= <-]. apply incl_refl.
  - destruct (current <=? quota); [intros [= <-]; intros r [] |].
    destruct (TrashItem row) as [item | x] eqn:E; simpl; [| discriminate].
    destruct (Trash.select_over_quota rest _ quota) as [items' | x] eqn:E';
      simpl; [| discriminate].
    intros [= <-]. apply TrashItem_returns in E. subst item.
    apply IH in E'. intros r [<- | Hr]; [now left | right; apply E', Hr].
Qed.

Lemma purge_select_invariant e older_than size_quota w items :
  unique_ids (trash_items w) ->
  Trash.purge_select e older_than size_quota w = inl (Return items) ->
  loop_invariant (map item_id items) (trash_items w) (trash_items w).
Proof.
  intros Hu. unfold Trash.purge_select.
  destruct (Trash.truthy_int older_than).
  - intros [= H]. apply TrashItems_returns in H. subst items.
    apply selection_invariant; [exact Hu |].
    intros r Hr. apply andb_true_iff in Hr as [_ Hr].
    now apply negb_true_iff in Hr.
  - destruct (Trash.truthy_float size_quota); [| discriminate].
    destruct (Trash.quota_bytes _) as [quota | x]; [| discriminate].
    destruct (_ <=? _); [discriminate |].
    intros [= H]. apply select_over_quota_returns in H.
    eapply invariant_incl; [apply incl_map, H |].
    apply selection_invariant; [exact Hu |].
    intros r Hr. now apply negb_true_iff in Hr.
Qed.

Lemma purge_items e older_than size_quota dry_run w :
  unique_ids (trash_items w) ->
  loop_invariant [] (trash_items w)
    (trash_items (fst (Trash.purge e older_than size_quota dry_run w))).
Proof.
  intros Hu.
  assert (Hsame : loop_invariant [] (trash_items w) (trash_items w)).
  { split; [apply keeps_refl | exact Hu | intros r _ []]. }
  unfold Trash.purge.
  destruct (Trash.purge_select e older_than size_quota w)
    as [[items | x] | m] eqn:E; simpl; try exact Hsame.
  destruct items as [| item rest]; [exact Hsame |].
  destruct dry_run; [exact Hsame |].
  pose proof (purge_loop_items e (item :: rest) w 0 (trash_items w)
                (purge_select_invariant _ _ _ _ _ Hu E)) as H.
  destruct (Trash.purge_loop e (item :: rest) w 0) as [w1 n]. exact H.
Qed.

Lemma restore_items e pattern output dry_run interactive w :
  unique_ids (trash_items w) ->
  loop_invariant [] (trash_items w)
    (trash_items (fst (Trash.restore e pattern output dry_run interactive w))).
Proof.
  intros Hu.
  assert (Hsame : loop_invariant [] (trash_items w) (trash_items w)).
  { split; [apply keeps_refl | exact Hu | intros r _ []]. }
  unfold Trash.restore.
  destruct interactive; [exact Hsame |].
  destruct pattern as [pattern |]; [| exact Hsame].
  destruct (String.eqb pattern ""); [exact Hsame |].
  match goal with
  | |- context [order_by ?b (List.filter ?f ?l)] =>
      destruct (selection_invariant b f l Hu) as [Hnd Hinv]
  end.
  { intros r Hr. apply andb_true_iff in Hr as [_ Hr].
    now apply negb_true_iff in Hr. }
  simpl in Hnd, Hinv.
  destruct (order_by _ _) as [| row rows]; [exact Hsame |].
  apply restore_loop_items; assumption.
Qed.

Lemma verify_missing_items e repair rows w issues l0 :
  loop_invariant (map item_id rows) l0 (trash_items w) ->
  loop_invariant [] l0
    (trash_items (fst (Trash.verify_missing e repair rows w issues))).
Proof.
  revert w issues. induction rows as [| row rest IH]; intros w issues Hinv;
    simpl.
  - exact Hinv.
  - simpl in Hinv.
    destruct (TrashItem row) as [item | x] eqn:E; simpl;
      [| apply (invariant_nil _ _ _ Hinv)].
    apply TrashItem_returns in E. subst item.
    destruct (Path_exists e (fs w) (trashed_path row)) as [[|] | x];
      [| destruct repair |]; simpl; try apply IH; simpl.
    + apply (step_same _ _ _ _ Hinv).
    + apply (step_delete _ _ _ _ Hinv).
    + apply (step_same _ _ _ _ Hinv).
    + apply (invariant_nil _ _ _ Hinv).
Qed.

Lemma not_restored_invariant l :
  unique_ids l -> loop_invariant (map item_id (not_restored l)) l l.
Proof.
  intros Hu. split; [apply keeps_refl | exact Hu |].
  intros r Hr Hi. apply in_map_iff in Hi as (row & Hid & Hrow).
  apply filter_In in Hrow as [Hrow Hf].
  rewrite (NoDup_map_eq item_id l r row Hu Hr Hrow (eq_sym Hid)).
  now apply negb_true_iff in Hf.
Qed.

Lemma verify_items e repair w :
  unique_ids (trash_items w) ->
  loop_invariant [] (trash_items w)
    (trash_items (fst (Trash.verify e repair w))).
Proof.
  intros Hu. unfold Trash.verify.
  destruct (bind _ _) as [disk_ids | x].
  - apply verify_missing_items. simpl. apply not_restored_invariant, Hu.
  - split; [apply keeps_refl | exact Hu | intros r _ []].
Qed.

Lemma undo_item_items e i item w :
  let l := trash_items w in
  let l' := trash_items (fst (Trash.undo_item e i item w)) in
  l' = l \/ l' = mark_restored i l.
Proof.
  unfold Trash.undo_item. repeat (case_match; simpl); tauto.
Qed.

Lemma invariant_mark i l0 l :
  loop_invariant [] l0 l -> loop_invariant [] l0 (mark_restored i l).
Proof.
  intros [Hk Hu _]. split.
  - apply (keeps_trans _ _ _ Hk), keeps_mark.
  - apply unique_mark, Hu.
  - intros r _ [].
Qed.

Lemma undo_items_items e ids w l0 :
  loop_invariant [] l0 (trash_items w) ->
  loop_invariant [] l0 (trash_items (fst (Trash.undo_items e ids w))).
Proof.
  revert w. induction ids as [| i rest IH]; intros w Hinv; simpl.
  - exact Hinv.
  - destruct (select_item i (trash_items w)) as [row |]; [| apply IH, Hinv].
    destruct (TrashItem row) as [item | x]; simpl; [| exact Hinv].
    apply IH. destruct (undo_item_items e i item w) as [-> | ->];
      [exact Hinv | apply invariant_mark, Hinv].
Qed.

Lemma undo_loop_items e ops w l0 :
  loop_invariant [] l0 (trash_items w) ->
  loop_invariant [] l0 (trash_items (fst (Trash.undo_loop e ops w))).
Proof.
  revert w. induction ops as [| op rest IH]; intros w Hinv; simpl.
  - exact Hinv.
  - destruct (String.eqb (operation_type op) "delete").
    + pose proof (undo_items_items e (details op) w l0 Hinv) as H.
      destruct (Trash.undo_items e (details op) w) as [w1 [u | x]];
        simpl in *; [apply IH |]; exact H.
    + apply IH. exact Hinv.
Qed.

Lemma insert_item_returns e row l l' :
  insert_item e row l = Return l' ->
  l' = l ++ [row] /\ ~ In (item_id row) (map item_id l).
Proof.
  unfold insert_item. destruct (insert_fails e); [discriminate |].
  destruct (existsb _ l) eqn:E; [discriminate |].
  intros [= <-]. split; [reflexivity |].
  intros Hin. apply in_map_iff in Hin as (r & Hid & Hr).
  apply Bool.not_true_iff_false in E. apply E.
  apply existsb_exists. exists r. split; [exact Hr |].
  now apply String.eqb_eq.
Qed.

Lemma NoDup_snoc {A} (x : A) (l : list A) :
  List.NoDup l -> ~ In x l -> List.NoDup (l ++ [x]).
Proof.
  induction l as [| a l IH]; simpl; intros Hd Hn.
  - constructor; [intros [] | constructor].
  - apply NoDup_cons_iff in Hd as [Ha Hd]. apply NoDup_cons_iff. split.
    + intros Hin. apply in_app_or in Hin as [Hin | [<- | []]]; tauto.
    + apply IH; tauto.
Qed.

Lemma delete_items_cases e filepath tags reason dry_run w :
  let l := trash_items w in
  let l' := trash_items (fst (Trash.delete e filepath tags reason dry_run w)) in
  l' = l \/ exists row, insert_item e row l = Return l'.
Proof.
  unfold Trash.delete.
  repeat (case_match; simpl; try (left; reflexivity)).
  right. eexists. eassumption.
Qed.

Lemma delete_items e filepath tags reason dry_run w :
  unique_ids (trash_items w) ->
  loop_invariant [] (trash_items w)
    (trash_items (fst (Trash.delete e filepath tags reason dry_run w))).
Proof.
  intros Hu.
  destruct (delete_items_cases e filepath tags reason dry_run w)
    as [H | [row H]]; simpl in H.
  - rewrite H. split; [apply keeps_refl | exact Hu | intros r _ []].
  - apply insert_item_returns in H as [-> Hfresh]. split.
    + intros r Hr _. apply in_or_app. now left.
    + unfold unique_ids. rewrite map_app. simpl.
      apply NoDup_snoc; assumption.
    + intros r _ [].
Qed.

Lemma empty_items e force dry_run w :
  unique_ids (trash_items w) ->
  loop_invariant [] (trash_items w)
    (trash_items (fst (Trash.empty e force dry_run w))).
Proof.
  intros Hu.
  assert (Hsame : loop_invariant [] (trash_items w) (trash_items w)).
  { split; [apply keeps_refl | exact Hu | intros r _ []]. }
  unfold Trash.empty. repeat (case_match; simpl; try exact Hsame).
  split.
  - intros r Hr Hres. apply filter_In. split; assumption.
  - apply NoDup_map_filter, Hu.
  - intros r _ [].
Qed.

Lemma undo_items_kept e count w :
  unique_ids (trash_items w) ->
  loop_invariant [] (trash_items w) (trash_items (fst (Trash.undo e count w))).
Proof.
  intros Hu.
  assert (Hsame : loop_invariant [] (trash_items w) (trash_items w)).
  { split; [apply keeps_refl | exact Hu | intros r _ []]. }
  unfold Trash.undo. destruct (sqlite_int count); [| exact Hsame].
  apply undo_loop_items, Hsame.
Qed.

Lemma run_items e c w :
  unique_ids (trash_items w) ->
  loop_invariant [] (trash_items w) (trash_items (run e c w)).
Proof.
  intros Hu. destruct c; simpl.
  - apply delete_items, Hu.
  - apply restore_items, Hu.
  - apply empty_items, Hu.
  - apply purge_items, Hu.
  - apply undo_items_kept, Hu.
  - apply verify_items, Hu.
  - split; [apply keeps_refl | exact Hu | intros r _ []].
Qed.

(** The catalog of a new trash is empty. *)
Lemma init_unique_ids e fs0 w :
  Trash.init e fs0 = Return w -> unique_ids (trash_items w).
Proof.
  unfold Trash.init. destruct (mkdir_parents _ fs0); simpl; [| discriminate].
  intros [= <-]. constructor.
Qed.

(** The primary key holds in every state the program reaches. *)
Lemma run_unique_ids e c w :
  unique_ids (trash_items w) -> unique_ids (trash_items (run e c w)).
Proof. intros Hu. apply (inv_unique _ _ _ (run_items e c w Hu)). Qed.

(** C10.  Whatever call is made, a catalog row that is restored before
    the call is the same row, still restored, after it, and it is the
    only row with its id: no call sets a restored item back to
    non-restored.  The ids of the catalog are pairwise different, as the
    primary key of [trash_items] requires. *)
Theorem restored_flag_is_monotone e c w r :
  unique_ids (trash_items w) ->
  In r (trash_items w) -> restored r = true ->
  In r (trash_items (run e c w))
  /\ forall r', In r' (trash_items (run e c w)) ->
                item_id r' = item_id r -> restored r' = true.
Proof.
  intros Hu Hr Hres. destruct (run_items e c w Hu) as [Hk Hu' _].
  pose proof (Hk r Hr Hres) as Hr'. split; [exact Hr' |].
  intros r' Hin Hid.
  now rewrite (NoDup_map_eq item_id _ r' r Hu' Hin Hr' Hid).
Qed.

Lemma restored_flag_is_monotone_witness :
  In (set_restored first_row)
     (trash_items (run (session_env 2000 "") (Empty true false) one_restored)).
Proof.
  apply (restored_flag_is_monotone (session_env 2000 "") (Empty true false)
           one_restored (set_restored first_row)).
  - unfold unique_ids. simpl.
    repeat (constructor; [simpl; intuition discriminate |]). constructor.
  - simpl. left. reflexivity.
  - reflexivity.
Defined.

(** * Further properties of the store *)

(** ** Dry runs *)

Lemma restore_loop_dry_run e output items w n :
  fst (Trash.restore_loop e output true items w n) = w.
Proof.
  revert n. induction items as [| row rest IH]; intros n; simpl.
  - reflexivity.
  - destruct (TrashItem row) as [item | x]; simpl; [apply IH | reflexivity].
Qed.

Lemma delete_dry_run e filepath tags reason w :
  fst (Trash.delete e filepath tags reason true w) = w.
Proof.
  unfold Trash.delete. repeat (case_match; simpl; try reflexivity).
Qed.

Lemma restore_dry_run e pattern output interactive w :
  fst (Trash.restore e pattern output true interactive w) = w.
Proof.
  unfold Trash.restore.
  destruct interactive; [reflexivity |].
  destruct pattern as [pattern |]; [| reflexivity].
  destruct (String.eqb pattern ""); [reflexivity |].
  destruct (order_by _ _) as [| row rows]; [reflexivity |].
  apply restore_loop_dry_run.
Qed.

Lemma empty_dry_run e force w : fst (Trash.empty e force true w) = w.
Proof. unfold Trash.empty. destruct (Nat.eqb _ 0); reflexivity. Qed.

Lemma purge_dry_run e older_than size_quota w :
  fst (Trash.purge e older_than size_quota true w) = w.
Proof.
  unfold Trash.purge.
  destruct (Trash.purge_select e older_than size_quota w)
    as [[[| item items] | x] | m]; reflexivity.
Qed.

(** X1.  A dry run of delete, restore, empty or purge leaves the file
    system, the catalog, the log and the configuration as they were. *)
Theorem dry_run_changes_nothing e w :
  (forall filepath tags reason,
     fst (Trash.delete e filepath tags reason true w) = w)
  /\ (forall pattern output interactive,
        fst (Trash.restore e pattern output true interactive w) = w)
  /\ (forall force, fst (Trash.empty e force true w) = w)
  /\ (forall older_than size_quota,
        fst (Trash.purge e older_than size_quota true w) = w).
Proof.
  repeat split; intros.
  - apply delete_dry_run.
  - apply restore_dry_run.
  - apply empty_dry_run.
  - apply purge_dry_run.
Qed.

(** ** What a delete writes *)

Lemma delete_tables e filepath tag_list reason dry_run w :
  let w' := fst (Trash.delete e filepath tag_list reason dry_run w) in
  match snd (Trash.delete e filepath tag_list reason dry_run w) with
  | Return Deleted =>
      exists row,
        trash_items w' = trash_items w ++ [row]
        /\ ~ In (item_id row) (map item_id (trash_items w))
        /\ original_path row = resolve e filepath
        /\ trashed_path row
           = joinpath (joinpath (files_dir e) (item_id row))
                      (path_name (resolve e filepath))
        /\ deletion_time row = now e 0%nat
        /\ tags row = tag_list
        /\ deletion_reason row = reason
        /\ restored row = false
        /\ operations w'
           = operations w ++
               [{| op_id := Trash.next_op_id (operations w);
                   operation_type := "delete"; timestamp := now e 1%nat;
                   details := [item_id row]; undone := false |}]
  | _ => trash_items w' = trash_items w /\ operations w' = operations w
  end.
Proof.
  unfold Trash.delete.
  repeat (case_match; simpl in *; simplify_eq; try (split; reflexivity)).
  all: match goal with
       | H : insert_item _ ?r _ = Return _ |- _ =>
           apply insert_item_returns in H as [-> Hfresh]; exists r
       end.
  all: repeat split; try reflexivity; exact Hfresh.
Qed.

(** X2.  A delete that ends with "Deleted" appends exactly one row to
    [trash_items] and one record to [operations]: the row has a new id,
    the resolved path as original path, the holding path
    [files_dir/id/name], the first clock reading of the call, the tags
    and the reason given, and is not restored; the record is of type
    [delete], carries the second clock reading and names that id.  A
    delete that ends in any other way, or raises, leaves both tables as
    they were. *)
Theorem delete_writes_one_row_or_none e filepath tag_list reason dry_run w :
  let w' := fst (Trash.delete e filepath tag_list reason dry_run w) in
  match snd (Trash.delete e filepath tag_list reason dry_run w) with
  | Return Deleted =>
      exists row,
        trash_items w' = trash_items w ++ [row]
        /\ ~ In (item_id row) (map item_id (trash_items w))
        /\ original_path row = resolve e filepath
        /\ trashed_path row
           = joinpath (joinpath (files_dir e) (item_id row))
                      (path_name (resolve e filepath))
        /\ deletion_time row = now e 0%nat
        /\ tags row = tag_list
        /\ deletion_reason row = reason
        /\ restored row = false
        /\ operations w'
           = operations w ++
               [{| op_id := Trash.next_op_id (operations w);
                   operation_type := "delete"; timestamp := now e 1%nat;
                   details := [item_id row]; undone := false |}]
  | _ => trash_items w' = trash_items w /\ operations w' = operations w
  end.
Proof. apply delete_tables. Qed.

(** ** Directories are not deduplicated *)

(** X3.  A directory is never treated as a duplicate: whatever the
    catalog holds, deleting a path that is not a regular file never ends
    with "File already in trash". *)
Theorem directory_is_never_deduplicated e filepath tag_list reason dry_run w :
  is_file (fs w) (resolve e filepath) = false ->
  snd (Trash.delete e filepath tag_list reason dry_run w)
  <> Return AlreadyInTrash.
Proof.
  intros Hf. unfold Trash.delete.
  destruct (Path_exists _ _ _) as [[|] | x]; [| discriminate | discriminate].
  destruct (Trash._is_critical_path e filepath); [discriminate |].
  destruct (Trash._get_path_size _ _ _) as [size | x]; [| discriminate].
  assert (Hh : Trash._calculate_hash e (fs w) (resolve e filepath)
               = ("dir_" +:+ uuid4 e 0%nat, 1%nat)).
  { unfold Trash._calculate_hash. unfold is_file in Hf.
    destruct (fs w !! resolve e filepath) as [[data |] |];
      (discriminate || reflexivity). }
  rewrite Hh. cbn [startswith String.prefix String.append].
  replace (startswith ("dir_" +:+ uuid4 e 0%nat) "file_") with false
    by reflexivity.
  rewrite andb_false_r.
  repeat (case_match; simpl; try discriminate).
Qed.

Lemma directory_is_never_deduplicated_witness :
  snd (Trash.delete (session_env 1000 "id1") "/home/u/docs" [] None false
                    docs_world) <> Return AlreadyInTrash.
Proof.
  apply (directory_is_never_deduplicated (session_env 1000 "id1")
           "/home/u/docs" [] None false docs_world).
  vm_compute. reflexivity.
Defined.

(** ** Empty *)

(** X4.  [empty] changes nothing when no item is in the trash, in a dry
    run, or when it is not forced and the answer at the prompt is not
    [yes]. *)
Theorem empty_is_a_no_op e force dry_run w :
  not_restored (trash_items w) = []
  \/ dry_run = true
  \/ (force = false /\ answer e <> "yes") ->
  Trash.empty e force dry_run w = (w, Return tt).
Proof.
  intros H. unfold Trash.empty.
  destruct (Nat.eqb (length (not_restored (trash_items w))) 0) eqn:E;
    [reflexivity |].
  destruct H as [H | [-> | [-> H]]].
  - rewrite H in E. discriminate.
  - reflexivity.
  - destruct dry_run; [reflexivity |].
    destruct (String.eqb (answer e) "yes") eqn:Ea;
      [apply String.eqb_eq in Ea; contradiction | reflexivity].
Qed.

Lemma empty_is_a_no_op_witness :
  Trash.empty (session_env 1000 "") false false fresh_world
  = (fresh_world, Return tt).
Proof.
  apply (empty_is_a_no_op (session_env 1000 "") false false fresh_world).
  left. reflexivity.
Defined.

(** ** Verify *)

Lemma verify_orphans_no_repair e names f :
  Trash.verify_orphans e false names f = f.
Proof. induction names as [| n rest IH]; simpl; [reflexivity | exact IH]. Qed.

Lemma verify_missing_no_repair e rows w issues :
  fst (Trash.verify_missing e false rows w issues) = w.
Proof.
  revert issues. induction rows as [| row rest IH]; intros issues; simpl.
  - reflexivity.
  - destruct (TrashItem row) as [item | x]; simpl; [| reflexivity].
    destruct (Path_exists _ _ _) as [[|] | x]; simpl;
      try apply IH; reflexivity.
Qed.

(** X5.  [verify] without repair is read-only: the file system, the
    catalog, the log and the configuration are as before, whether it
    returns or raises. *)
Theorem verify_without_repair_is_read_only e w :
  fst (Trash.verify e false w) = w.
Proof.
  unfold Trash.verify. destruct (bind _ _) as [disk_ids | x]; [| reflexivity].
  rewrite verify_missing_no_repair.
  rewrite verify_orphans_no_repair. destruct w; reflexivity.
Qed.

(** ** Configuration *)

(** X6.  [config_get] after [config_set] prints the value set; a second
    set of the same key wins; other keys, the file system, the catalog
    and the log are untouched. *)
Theorem config_set_then_get key value w :
  Trash.config_get key (Trash.config_set key value w) = Some value
  /\ (forall other, other <> key ->
        Trash.config_get other (Trash.config_set key value w)
        = Trash.config_get other w)
  /\ (forall value',
        Trash.config_set key value' (Trash.config_set key value w)
        = Trash.config_set key value' w)
  /\ fs (Trash.config_set key value w) = fs w
  /\ trash_items (Trash.config_set key value w) = trash_items w
  /\ operations (Trash.config_set key value w) = operations w.
Proof.
  unfold Trash.config_get, Trash.config_set, set_config. simpl.
  repeat split.
  - apply lookup_insert_eq.
  - intros other Hne. apply lookup_insert_ne. congruence.
  - intros value'. f_equal. apply insert_insert_eq.
Qed.

Lemma config_set_then_get_witness :
  Trash.config_get "color" (Trash.config_set "quota" "5" fresh_world)
  = Trash.config_get "color" fresh_world.
Proof.
  destruct (config_set_then_get "quota" "5" fresh_world) as (_ & H & _).
  apply H. discriminate.
Defined.

Lemma config_get_missing key :
  Trash.config_get key
    {| fs := ∅; trash_items := []; operations := []; config := ∅ |} = None.
Proof. apply lookup_empty. Qed.

(** ** The operation log, further *)

Lemma run_operations_cases e c w :
  map op_key (operations (run e c w)) = map op_key (operations w)
  \/ exists i,
       operations (run e c w)
       = operations w ++
           [{| op_id := Trash.next_op_id (operations w);
               operation_type := "delete"; timestamp := now e 1%nat;
               details := [i]; undone := false |}].
Proof.
  destruct c as [filepath tag_list reason dry_run | pattern output dry_run inter
                | force dry_run | older_than size_quota dry_run | count
                | repair | key value]; simpl.
  - destruct (delete_log e filepath tag_list reason dry_run w)
      as [(_ & _ & i & Hops) | [_ Hops]]; [right; eauto | left; now rewrite Hops].
  - left. now rewrite restore_operations.
  - left. now rewrite empty_operations.
  - left. now rewrite purge_operations.
  - left. apply undo_operations.
  - left. now rewrite verify_operations.
  - left. reflexivity.
Qed.

Lemma next_op_id_above l o : In o l -> op_id o < Trash.next_op_id l.
Proof.
  unfold Trash.next_op_id. induction l as [| a l IH]; simpl; [contradiction |].
  intros [-> | H]; [lia | specialize (IH H); lia].
Qed.

Lemma op_id_of_key l l' :
  map op_key l' = map op_key l -> map op_id l' = map op_id l.
Proof.
  intros H.
  assert (Hk : forall l0, map op_id l0 = map (fun k => k.1.1.1) (map op_key l0)).
  { intros l0. rewrite map_map. reflexivity. }
  now rewrite (Hk l'), (Hk l), H.
Qed.

(** X7.  Whatever call is made, the ids of the operation log stay
    pairwise different, and a record that was not in the log before has
    an id larger than every id that was. *)
Theorem operation_ids_stay_unique e c w :
  List.NoDup (map op_id (operations w)) ->
  List.NoDup (map op_id (operations (run e c w)))
  /\ forall o', In o' (operations (run e c w)) ->
       In (op_id o') (map op_id (operations w))
       \/ forall o, In o (operations w) -> op_id o < op_id o'.
Proof.
  intros Hnd. destruct (run_operations_cases e c w) as [Hk | [i Hops]].
  - apply op_id_of_key in Hk. split; [now rewrite Hk |].
    intros o' Ho'. left. rewrite <- Hk. now apply in_map.
  - rewrite Hops. split.
    + rewrite map_app. simpl. apply NoDup_snoc; [exact Hnd |].
      intros Hin. apply in_map_iff in Hin as (o & Hid & Ho).
      pose proof (next_op_id_above _ _ Ho). lia.
    + intros o' Ho'. apply in_app_or in Ho' as [Ho' | [<- | []]].
      * left. now apply in_map.
      * right. intros o Ho. simpl. now apply next_op_id_above.
Qed.

Lemma after_two_deletes_op_ids :
  map op_id (operations after_two_deletes) = [1; 2].
Proof. vm_compute. reflexivity. Qed.

Lemma operation_ids_stay_unique_witness :
  List.NoDup
    (map op_id
       (operations (run (session_env 1002 "id3")
                        (Delete "/home/u/copy.txt" [] None false)
                        after_two_deletes))).
Proof.
  apply (operation_ids_stay_unique (session_env 1002 "id3")
           (Delete "/home/u/copy.txt" [] None false) after_two_deletes).
  rewrite after_two_deletes_op_ids.
  repeat (constructor; [simpl; intuition discriminate |]). constructor.
Defined.

Lemma set_undone_id o : undone o = true -> set_undone o = o.
Proof. destruct o; simpl. intros ->. reflexivity. Qed.

Lemma mark_undone_keeps i l o :
  In o l -> undone o = true -> In o (mark_undone i l).
Proof.
  intros Ho Hu. unfold mark_undone. apply in_map_iff. exists o.
  split; [| exact Ho]. destruct (op_id o =? i); [apply set_undone_id, Hu | reflexivity].
Qed.

Lemma undo_loop_keeps_undone e ops w o :
  In o (operations w) -> undone o = true ->
  In o (operations (fst (Trash.undo_loop e ops w))).
Proof.
  revert w. induction ops as [| op rest IH]; intros w Ho Hu; simpl.
  - exact Ho.
  - destruct (String.eqb (operation_type op) "delete").
    + pose proof (undo_items_operations e (details op) w) as H.
      destruct (Trash.undo_items e (details op) w) as [w1 [u | x]];
        simpl in *; [| now rewrite H].
      apply IH; [| exact Hu]. simpl. apply mark_undone_keeps; [| exact Hu].
      now rewrite H.
    + apply IH; [| exact Hu]. simpl. now apply mark_undone_keeps.
Qed.

(** X8.  The undone mark is never cleared: whatever call is made, a
    record of the log that is undone is still there, unchanged, after
    the call. *)
Theorem undone_flag_is_never_cleared e c w o :
  In o (operations w) -> undone o = true -> In o (operations (run e c w)).
Proof.
  intros Ho Hu.
  destruct c as [filepath tag_list reason dry_run | pattern output dry_run inter
                | force dry_run | older_than size_quota dry_run | count
                | repair | key value]; simpl.
  - destruct (delete_log e filepath tag_list reason dry_run w)
      as [(_ & _ & i & Hops) | [_ Hops]]; rewrite Hops;
      [apply in_or_app; now left | exact Ho].
  - now rewrite restore_operations.
  - now rewrite empty_operations.
  - now rewrite purge_operations.
  - unfold Trash.undo. destruct (sqlite_int count); [| exact Ho].
    now apply undo_loop_keeps_undone.
  - now rewrite verify_operations.
  - exact Ho.
Qed.

Lemma undone_flag_is_never_cleared_witness :
  In (set_undone first_record)
     (operations (run (session_env 1002 "id3")
                      (Delete "/home/u/b.txt" [] None false) first_undone)).
Proof.
  apply (undone_flag_is_never_cleared (session_env 1002 "id3")
           (Delete "/home/u/b.txt" [] None false) first_undone
           (set_undone first_record)).
  - left. reflexivity.
  - reflexivity.
Defined.

(** *** Undo of operations whose items have left the catalog *)

Lemma undo_items_all_gone e ids w :
  (forall i, In i ids -> select_item i (trash_items w) = None) ->
  Trash.undo_items e ids w = (w, Return tt).
Proof.
  induction ids as [| i rest IH]; intros H; simpl; [reflexivity |].
  rewrite (H i (or_introl eq_refl)). apply IH. intros j Hj. apply H. now right.
Qed.

Lemma mark_undone_marks i l o' :
  In o' (mark_undone i l) -> op_id o' = i -> undone o' = true.
Proof.
  unfold mark_undone. intros H Hid. apply in_map_iff in H as (o & Ho & _).
  destruct (op_id o =? i) eqn:E; subst o'; [reflexivity |].
  apply Z.eqb_neq in E. contradiction.
Qed.

Lemma mark_undone_origin i l o' :
  In o' (mark_undone i l) ->
  exists o, In o l /\ op_id o = op_id o' /\ (undone o = true -> undone o' = true).
Proof.
  unfold mark_undone. intros H. apply in_map_iff in H as (o & Ho & Hin).
  exists o. split; [exact Hin |].
  destruct (op_id o =? i); subst o'; simpl; auto.
Qed.

Lemma undo_loop_all_gone e ops w :
  (forall op, In op ops -> forall i, In i (details op) ->
     select_item i (trash_items w) = None) ->
  let r := Trash.undo_loop e ops w in
  snd r = Return tt
  /\ fs (fst r) = fs w
  /\ trash_items (fst r) = trash_items w
  /\ config (fst r) = config w
  /\ (forall o', In o' (operations (fst r)) ->
        exists o, In o (operations w) /\ op_id o = op_id o'
                  /\ (undone o = true -> undone o' = true))
  /\ (forall op o', In op ops -> In o' (operations (fst r)) ->
        op_id o' = op_id op -> undone o' = true).
Proof.
  revert w. induction ops as [| op rest IH]; intros w H; simpl.
  - repeat split; try reflexivity.
    + intros o' Ho'. exists o'. auto.
    + intros op o' [].
  - assert (Hitems : (if String.eqb (operation_type op) "delete"
                      then Trash.undo_items e (details op) w
                      else (w, Return tt)) = (w, Return tt)).
    { destruct (String.eqb (operation_type op) "delete"); [| reflexivity].
      apply undo_items_all_gone. intros i Hi. apply (H op); [now left | exact Hi]. }
    rewrite Hitems.
    set (w1 := set_operations (mark_undone (op_id op) (operations w)) w).
    destruct (IH w1) as (Hr & Hfs & Hti & Hcf & Horig & Hmark).
    { intros op' Hop' i Hi. simpl. apply (H op'); [now right | exact Hi]. }
    repeat split; try assumption.
    + intros o' Ho'. destruct (Horig o' Ho') as (o1 & Ho1 & Hid1 & Hu1).
      simpl in Ho1. destruct (mark_undone_origin _ _ _ Ho1) as (o & Ho & Hid & Hu).
      exists o. repeat split; [exact Ho | congruence | auto].
    + intros op' o' [<- | Hop'] Ho' Hid; [| now apply (Hmark op' o')].
      destruct (Horig o' Ho') as (o1 & Ho1 & Hid1 & Hu1). apply Hu1.
      simpl in Ho1. apply (mark_undone_marks _ _ _ Ho1). congruence.
Qed.

Lemma sqlite_int_in_range n :
  - 2 ^ 63 <= n < 2 ^ 63 -> sqlite_int n = Return n.
Proof.
  intros [Hlo Hhi]. unfold sqlite_int.
  apply Z.leb_le in Hlo. apply Z.ltb_lt in Hhi. now rewrite Hlo, Hhi.
Qed.

Lemma sqlite_int_out_of_range n :
  ~ (- 2 ^ 63 <= n < 2 ^ 63) -> sqlite_int n = Raise OverflowError.
Proof.
  intros H. unfold sqlite_int.
  destruct (- 2 ^ 63 <=? n) eqn:Elo; [| reflexivity].
  destruct (n <? 2 ^ 63) eqn:Ehi; [| reflexivity].
  apply Z.leb_le in Elo. apply Z.ltb_lt in Ehi. tauto.
Qed.

(** X9.  When none of the items named by the selected operations is in
    the catalog any more (they were emptied or purged), [undo] moves no
    file and changes no row; with a count that fits SQLite's 64-bit
    integers it returns normally and every selected operation is marked
    undone, so that a later undo passes over it; with any other count it
    raises [OverflowError] when it binds the count to the query. *)
Theorem undo_of_vanished_items e count w :
  (forall op, In op (Trash.select_undoable e count (operations w)) ->
     forall i, In i (details op) -> select_item i (trash_items w) = None) ->
  let r := Trash.undo e count w in
  fs (fst r) = fs w
  /\ trash_items (fst r) = trash_items w
  /\ (- 2 ^ 63 <= count < 2 ^ 63 ->
      snd r = Return tt
      /\ (forall op o', In op (Trash.select_undoable e count (operations w)) ->
            In o' (operations (fst r)) -> op_id o' = op_id op ->
            undone o' = true)
      /\ (forall op, In op (Trash.select_undoable e count (operations w)) ->
            forall e' o',
              In o' (Trash.select_undoable e' count (operations (fst r))) ->
              op_id o' <> op_id op))
  /\ (~ (- 2 ^ 63 <= count < 2 ^ 63) -> r = (w, Raise OverflowError)).
Proof.
  intros H. unfold Trash.undo.
  destruct (undo_loop_all_gone e _ w H) as (Hr & Hfs & Hti & _ & _ & Hmark).
  destruct (Z_le_dec (- 2 ^ 63) count) as [Hlo | Hlo];
    [destruct (Z_lt_dec count (2 ^ 63)) as [Hhi | Hhi] |].
  - rewrite (sqlite_int_in_range count (conj Hlo Hhi)). simpl.
    repeat split; try assumption; [| tauto].
    intros op Hop e' o' Ho' Hid.
    apply select_undoable_not_undone in Ho' as [Ho' Hu].
    rewrite (Hmark op o' Hop Ho' Hid) in Hu. discriminate.
  - rewrite (sqlite_int_out_of_range count) by tauto. simpl.
    repeat split; tauto.
  - rewrite (sqlite_int_out_of_range count) by tauto. simpl.
    repeat split; tauto.
Qed.

Lemma emptied_rows : trash_items emptied = [].
Proof. vm_compute. reflexivity. Qed.

Lemma undo_of_vanished_items_witness :
  snd (Trash.undo (session_env 2000 "") 2 emptied) = Return tt
  /\ fs (fst (Trash.undo (session_env 2000 "") 2 emptied)) = fs emptied.
Proof.
  destruct (undo_of_vanished_items (session_env 2000 "") 2 emptied)
    as (H1 & _ & H2 & _).
  - intros op _ i _. rewrite emptied_rows. reflexivity.
  - split; [apply H2; lia | exact H1].
Defined.

(** ** Rows and their delete records *)

Lemma ids_within_refl l : ids_within l l.
Proof. intros r Hr. now apply in_map. Qed.

Lemma ids_within_trans l1 l2 l3 :
  ids_within l1 l2 -> ids_within l2 l3 -> ids_within l1 l3.
Proof.
  intros H12 H23 r Hr. specialize (H23 r Hr).
  apply in_map_iff in H23 as (r2 & Hid & Hr2). rewrite <- Hid. now apply H12.
Qed.

Lemma ids_within_delete i l : ids_within l (delete_item i l).
Proof. intros r Hr. apply filter_In in Hr as [Hr _]. now apply in_map. Qed.

Lemma ids_within_mark i l : ids_within l (mark_restored i l).
Proof. intros r Hr. rewrite <- (ids_mark i l). now apply in_map. Qed.

Lemma ids_within_step i l l' :
  l' = l \/ l' = delete_item i l \/ l' = mark_restored i l -> ids_within l l'.
Proof.
  intros [-> | [-> | ->]];
    [apply ids_within_refl | apply ids_within_delete | apply ids_within_mark].
Qed.

Lemma restore_loop_ids e output dry_run items w n :
  ids_within (trash_items w)
    (trash_items (fst (Trash.restore_loop e output dry_run items w n))).
Proof.
  revert w n. induction items as [| row rest IH]; intros w n; simpl.
  - apply ids_within_refl.
  - destruct (TrashItem row) as [item | x]; simpl; [| apply ids_within_refl].
    pose proof (restore_item_items e output dry_run item w) as H. simpl in H.
    destruct (Trash.restore_item e output dry_run item w) as [w1 [ok | x]];
      simpl in *.
    + eapply ids_within_trans; [apply (ids_within_step _ _ _ H) | apply IH].
    + apply (ids_within_step _ _ _ H).
Qed.

Lemma restore_ids e pattern output dry_run interactive w :
  ids_within (trash_items w)
    (trash_items (fst (Trash.restore e pattern output dry_run interactive w))).
Proof.
  unfold Trash.restore.
  destruct interactive; [apply ids_within_refl |].
  destruct pattern as [pattern |]; [| apply ids_within_refl].
  destruct (String.eqb pattern ""); [apply ids_within_refl |].
  destruct (order_by _ _) as [| row rows]; [apply ids_within_refl |].
  apply restore_loop_ids.
Qed.

Lemma purge_loop_ids e items w n :
  ids_within (trash_items w) (trash_items (fst (Trash.purge_loop e items w n))).
Proof.
  revert w n. induction items as [| item rest IH]; intros w n; simpl.
  - apply ids_within_refl.
  - pose proof (purge_item_items e w item) as H. simpl in H.
    destruct (Trash.purge_item e w item) as [w1 ok]; simpl in H.
    eapply ids_within_trans; [| apply IH].
    destruct H as [-> | ->]; [apply ids_within_refl | apply ids_within_delete].
Qed.

Lemma purge_ids e older_than size_quota dry_run w :
  ids_within (trash_items w)
    (trash_items (fst (Trash.purge e older_than size_quota dry_run w))).
Proof.
  unfold Trash.purge.
  destruct (Trash.purge_select e older_than size_quota w)
    as [[items | x] | m]; simpl; try apply ids_within_refl.
  destruct items as [| item rest]; [apply ids_within_refl |].
  destruct dry_run; [apply ids_within_refl |].
  pose proof (purge_loop_ids e (item :: rest) w 0) as H.
  destruct (Trash.purge_loop e (item :: rest) w 0) as [w1 n]. exact H.
Qed.

Lemma undo_items_ids e ids w :
  ids_within (trash_items w) (trash_items (fst (Trash.undo_items e ids w))).
Proof.
  revert w. induction ids as [| i rest IH]; intros w; simpl.
  - apply ids_within_refl.
  - destruct (select_item i (trash_items w)) as [row |]; [| apply IH].
    destruct (TrashItem row) as [item | x]; simpl; [| apply ids_within_refl].
    eapply ids_within_trans; [| apply IH].
    destruct (undo_item_items e i item w) as [-> | ->];
      [apply ids_within_refl | apply ids_within_mark].
Qed.

Lemma undo_loop_ids e ops w :
  ids_within (trash_items w) (trash_items (fst (Trash.undo_loop e ops w))).
Proof.
  revert w. induction ops as [| op rest IH]; intros w; simpl.
  - apply ids_within_refl.
  - destruct (String.eqb (operation_type op) "delete").
    + pose proof (undo_items_ids e (details op) w) as H.
      destruct (Trash.undo_items e (details op) w) as [w1 [u | x]];
        simpl in *; [| exact H].
      eapply ids_within_trans; [exact H | apply (IH (set_operations _ w1))].
    + apply (IH (set_operations _ w)).
Qed.

Lemma verify_missing_ids e repair rows w issues :
  ids_within (trash_items w)
    (trash_items (fst (Trash.verify_missing e repair rows w issues))).
Proof.
  revert w issues. induction rows as [| row rest IH]; intros w issues; simpl.
  - apply ids_within_refl.
  - destruct (TrashItem row) as [item | x]; simpl; [| apply ids_within_refl].
    destruct (Path_exists _ _ _) as [[|] | x]; [| destruct repair |];
      simpl; try apply IH; try apply ids_within_refl.
    eapply ids_within_trans; [| apply IH]. apply ids_within_delete.
Qed.

Lemma verify_ids e repair w :
  ids_within (trash_items w) (trash_items (fst (Trash.verify e repair w))).
Proof.
  unfold Trash.verify.
  destruct (bind _ _) as [disk_ids | x]; [| apply ids_within_refl].
  apply (verify_missing_ids e repair _ (set_fs _ w)).
Qed.

Lemma undo_ids e count w :
  ids_within (trash_items w) (trash_items (fst (Trash.undo e count w))).
Proof.
  unfold Trash.undo.
  destruct (sqlite_int count); [apply undo_loop_ids | apply ids_within_refl].
Qed.

Lemma empty_ids e force dry_run w :
  ids_within (trash_items w) (trash_items (fst (Trash.empty e force dry_run w))).
Proof.
  unfold Trash.empty.
  repeat (case_match; simpl; try apply ids_within_refl).
  intros r Hr. apply filter_In in Hr as [Hr _]. now apply in_map.
Qed.

Lemma record_survives e c w o :
  In o (operations w) ->
  exists o', In o' (operations (run e c w)) /\ op_key o' = op_key o.
Proof.
  intros Ho. destruct (run_operations_cases e c w) as [Hk | [i Hops]].
  - assert (Hin : In (op_key o) (map op_key (operations (run e c w)))).
    { rewrite Hk. now apply in_map. }
    apply in_map_iff in Hin as (o' & Hk' & Ho'). eauto.
  - exists o. split; [| reflexivity]. rewrite Hops. apply in_or_app. now left.
Qed.

Lemma logged_by_ids e c w :
  logged w ->
  ids_within (trash_items w) (trash_items (run e c w)) -> logged (run e c w).
Proof.
  intros Hl Hids r' Hr'. specialize (Hids r' Hr').
  apply in_map_iff in Hids as (r & Hid & Hr).
  destruct (Hl r Hr) as (o & Ho & Ht & Hd).
  destruct (record_survives e c w o Ho) as (o' & Ho' & Hk).
  exists o'. injection Hk as _ Hty _ Hde. rewrite <- Hid.
  repeat split; [exact Ho' | congruence | congruence].
Qed.

(** X10.  Every catalog row has its record in the log: if each row of
    [trash_items] is named by a record of type [delete] before a call,
    the same holds after it. *)
Theorem every_row_has_its_delete_record e c w :
  logged w -> logged (run e c w).
Proof.
  intros Hl.
  destruct c as [filepath tag_list reason dry_run | pattern output dry_run inter
                | force dry_run | older_than size_quota dry_run | count
                | repair | key value];
    [| apply (logged_by_ids e _ w Hl); simpl ..].
  - pose proof (delete_tables e filepath tag_list reason dry_run w) as H.
    intros r' Hr'.
    change (run e (Delete filepath tag_list reason dry_run) w)
      with (fst (Trash.delete e filepath tag_list reason dry_run w)) in *.
    destruct (Trash.delete e filepath tag_list reason dry_run w)
      as [w' [m | x]]; simpl in *.
    2:{ destruct H as [Hi Ho]. rewrite Hi in Hr'. rewrite Ho.
        apply (Hl r' Hr'). }
    destruct m;
      try (destruct H as [Hi Ho]; rewrite Hi in Hr'; rewrite Ho;
           apply (Hl r' Hr')).
    destruct H as (row & Hi & _ & _ & _ & _ & _ & _ & _ & Ho).
    rewrite Hi in Hr'. rewrite Ho.
    apply in_app_or in Hr' as [Hr' | [<- | []]].
    + destruct (Hl r' Hr') as (o & Hin & Ht & Hd).
      exists o. repeat split; [apply in_or_app; now left | exact Ht | exact Hd].
    + eexists. split; [apply in_or_app; right; left; reflexivity |].
      split; reflexivity.
  - apply restore_ids.
  - apply empty_ids.
  - apply purge_ids.
  - apply undo_ids.
  - apply verify_ids.
  - apply ids_within_refl.
Qed.

Lemma after_first_delete_operations :
  operations after_first_delete = [first_record].
Proof. vm_compute. reflexivity. Qed.

Lemma every_row_has_its_delete_record_witness :
  logged (run (session_env 1001 "id2")
              (Delete "/home/u/b.txt" [] None false) after_first_delete).
Proof.
  apply (every_row_has_its_delete_record (session_env 1001 "id2")
           (Delete "/home/u/b.txt" [] None false) after_first_delete).
  intros r Hr. rewrite after_first_delete_rows in Hr.
  destruct Hr as [<- | []]. exists first_record.
  rewrite after_first_delete_operations.
  split; [left; reflexivity | split; reflexivity].
Defined.

Lemma new_trash_is_logged e fs0 w : Trash.init e fs0 = Return w -> logged w.
Proof.
  unfold Trash.init. destruct (mkdir_parents _ fs0); simpl; [| discriminate].
  intros [= <-] r [].
Qed.

(** ** Where a deleted file goes *)

Lemma length_append a b :
  String.length (a +:+ b) = (String.length a + String.length b)%nat.
Proof. induction a as [| c a IH]; simpl; [reflexivity | now rewrite IH]. Qed.

Lemma ancestors_from_length acc s x :
  In x (ancestors_from acc s) ->
  (String.length x <= String.length acc + String.length s)%nat
  /\ (String.length x < String.length acc + String.length s
      \/ acc = EmptyString)%nat.
Proof.
  revert acc. induction s as [| c r IH]; intros acc; simpl; [contradiction |].
  intros H. apply in_app_or in H as [H | H].
  - destruct (Ascii.eqb c slash); [| contradiction].
    destruct H as [<- | []].
    destruct (String.eqb acc "") eqn:E.
    + apply String.eqb_eq in E. subst acc. simpl. split; [lia | now right].
    + split; [lia | left; lia].
  - destruct (IH _ H) as [Hle Hlt]. rewrite length_append in Hle. simpl in Hle.
    split; [lia |]. left. destruct Hlt as [Hlt | Hacc].
    + rewrite length_append in Hlt. simpl in Hlt. lia.
    + destruct acc; discriminate.
Qed.

Lemma ancestors_length p x :
  In x (ancestors p ++ [p]) -> (String.length x <= String.length p)%nat.
Proof.
  intros H. apply in_app_or in H as [H | [<- | []]]; [| lia].
  apply ancestors_from_length in H as [H _]. simpl in H. exact H.
Qed.

Lemma joinpath_longer d n :
  n <> EmptyString -> (String.length d < String.length (joinpath d n))%nat.
Proof.
  intros Hn. unfold joinpath. destruct (String.eqb d "/") eqn:E.
  - apply String.eqb_eq in E. subst d. destruct n; [contradiction |].
    simpl. lia.
  - rewrite !length_append. simpl. lia.
Qed.

Lemma ensure_dir_only r d f1 k :
  ensure_dir r d = Return f1 ->
  forall f, r = Return f -> k <> d -> f1 !! k = f !! k.
Proof.
  unfold ensure_dir. intros H f -> Hk. simpl in H.
  destruct (f !! d) as [[data |] |] eqn:E; try discriminate;
    injection H as <-; [reflexivity |].
  now apply lookup_insert_ne.
Qed.

Lemma fold_ensure_dir_only ds r f f1 k :
  fold_left ensure_dir ds r = Return f1 -> r = Return f ->
  ~ In k ds -> f1 !! k = f !! k.
Proof.
  revert r f. induction ds as [| d ds IH]; intros r f H Hr Hk; simpl in H.
  - congruence.
  - destruct (ensure_dir r d) as [f' | x] eqn:E.
    + rewrite (IH _ f' H eq_refl); [| intros Hin; apply Hk; now right].
      apply (ensure_dir_only _ _ _ _ E _ Hr). intros ->. apply Hk. now left.
    + exfalso. clear -H. induction ds as [| d' ds IH']; simpl in H;
        [discriminate | apply IH', H].
Qed.

Lemma mkdir_parents_only p f f1 k :
  mkdir_parents p f = Return f1 -> ~ In k (ancestors p ++ [p]) ->
  f1 !! k = f !! k.
Proof. intros H. apply (fold_ensure_dir_only _ _ _ _ _ H eq_refl). Qed.

Lemma mkdir_parents_not_longer p f f1 k :
  mkdir_parents p f = Return f1 ->
  (String.length p < String.length k)%nat -> f1 !! k = f !! k.
Proof.
  intros H Hlen. apply (mkdir_parents_only _ _ _ _ H).
  intros Hin. apply ancestors_length in Hin. lia.
Qed.

Lemma move_file_to_free_path e src dst f f2 data :
  f !! src = Some (File data) -> f !! dst = None ->
  shutil_move e src dst f = Return f2 ->
  f2 = <[dst := File data]> (delete src f).
Proof.
  intros Hs Hd. unfold shutil_move, is_dir, os_rename.
  destruct (move_fails e src dst); [discriminate |].
  rewrite Hd, Hs. now intros [= <-].
Qed.

Lemma rmdir_quiet_keeps_files e p f k data :
  f !! k = Some (File data) -> rmdir_quiet e p f !! k = Some (File data).
Proof.
  intros Hk. unfold rmdir_quiet, rmdir.
  destruct (remove_fails e p); [exact Hk |].
  destruct (f !! p) as [[d |] |] eqn:E; try exact Hk.
  destruct (has_children p f); [exact Hk |].
  rewrite lookup_delete_ne; [exact Hk | congruence].
Qed.

Lemma rmdir_quiet_keeps_free e p f k :
  f !! k = None -> rmdir_quiet e p f !! k = None.
Proof.
  intros Hk. unfold rmdir_quiet, rmdir.
  destruct (remove_fails e p); [exact Hk |].
  destruct (f !! p) as [[d |] |] eqn:E; try exact Hk.
  destruct (has_children p f); [exact Hk |].
  destruct (decide (p = k)) as [-> | Hne];
    [apply lookup_delete_eq | now rewrite lookup_delete_ne].
Qed.

(** The two ends of a delete that got as far as moving the file. *)
Lemma delete_moves e filepath tag_list reason w data :
  fs w !! resolve e filepath = Some (File data) ->
  path_name (resolve e filepath) <> EmptyString ->
  fs w !! holding_path e w filepath = None ->
  let r := Trash.delete e filepath tag_list reason false w in
  (snd r = Return Deleted ->
   fs (fst r) !! resolve e filepath = None
   /\ fs (fst r) !! holding_path e w filepath = Some (File data)
   /\ (forall k n, k <> resolve e filepath -> fs w !! k = Some n ->
                   fs (fst r) !! k = Some n)
   /\ exists row,
        trash_items (fst r) = trash_items w ++ [row]
        /\ item_id row = new_item_id e w filepath
        /\ trashed_path row = holding_path e w filepath
        /\ file_size row = Trash.st_size data
        /\ file_hash row
           = fst (Trash._calculate_hash e (fs w) (resolve e filepath)))
  /\ (snd r = Return MetadataFailed ->
      move_fails e (holding_path e w filepath) (resolve e filepath) = false ->
      fs (fst r) !! resolve e filepath = Some (File data)
      /\ fs (fst r) !! holding_path e w filepath = None
      /\ trash_items (fst r) = trash_items w
      /\ operations (fst r) = operations w).
Proof.
  intros Hsrc Hname Hfree. unfold holding_path, new_item_id in *.
  unfold Trash.delete.
  destruct (Path_exists _ _ _) as [[|] | x0];
    [| split; discriminate | split; discriminate].
  destruct (Trash._is_critical_path e filepath); [split; discriminate |].
  assert (Hsize : Trash._get_path_size e (fs w) (resolve e filepath)
                  = if stat_fails e (resolve e filepath)
                    then Raise PermissionError
                    else Return (Trash.st_size data)).
  { unfold Trash._get_path_size, Trash.stat_st_size. rewrite Hsrc.
    destruct (stat_fails e _); reflexivity. }
  rewrite Hsize. destruct (stat_fails e _); [split; discriminate |].
  destruct (Trash._calculate_hash e (fs w) (resolve e filepath))
    as [h drawn] eqn:Eh. simpl in Hfree |- *.
  destruct (bool_decide _ && startswith h "file_").
  { destruct (if is_file _ _ then _ else _); split; discriminate. }
  set (subdir := joinpath (files_dir e) (uuid4 e drawn)) in *.
  set (p := resolve e filepath) in *.
  set (t := joinpath subdir (path_name p)) in *.
  destruct (mkdir_parents subdir (fs w)) as [f1 | x] eqn:Emk;
    [| split; discriminate].
  assert (Hs1 : f1 !! p = Some (File data))
    by apply (mkdir_parents_keeps _ _ _ _ _ Emk Hsrc).
  assert (Ht1 : f1 !! t = None).
  { rewrite (mkdir_parents_not_longer _ _ _ _ Emk); [exact Hfree |].
    apply joinpath_longer, Hname. }
  assert (Hpt : p <> t) by congruence.
  destruct (shutil_move e p t f1) as [f2 | x] eqn:Emv; [| split; discriminate].
  apply (move_file_to_free_path _ _ _ _ _ _ Hs1 Ht1) in Emv. subst f2.
  destruct (insert_item e _ (trash_items w)) as [items | x] eqn:Ei; simpl.
  - split; [intros _ | discriminate]. repeat split.
    + rewrite lookup_insert_ne; [apply lookup_delete_eq | congruence].
    + apply lookup_insert_eq.
    + intros k n Hk Hkn. destruct (decide (k = t)) as [-> | Hkt].
      * apply (mkdir_parents_keeps _ _ _ _ _ Emk) in Hkn. congruence.
      * rewrite lookup_insert_ne by congruence.
        rewrite lookup_delete_ne by congruence.
        apply (mkdir_parents_keeps _ _ _ _ _ Emk Hkn).
    + apply insert_item_returns in Ei as [-> _]. eexists.
      split; [reflexivity |]. repeat split.
  - split; [discriminate | intros _ Hback].
    assert (Hmove : shutil_move e t p (<[t:=File data]> (delete p f1))
                    = Return (<[p:=File data]>
                                (delete t (<[t:=File data]> (delete p f1))))).
    { unfold shutil_move, is_dir, os_rename. rewrite Hback.
      rewrite lookup_insert_ne by congruence. rewrite lookup_delete_eq.
      rewrite lookup_insert_eq. reflexivity. }
    rewrite Hmove. repeat split.
    + apply rmdir_quiet_keeps_files, lookup_insert_eq.
    + apply rmdir_quiet_keeps_free.
      rewrite lookup_insert_ne by congruence. apply lookup_delete_eq.
Qed.

(** X11.  A delete of a regular file that ends with "Deleted", when
    nothing is stored at the holding path beforehand, leaves nothing at
    the original path and the file, with the same bytes, at the holding
    path [files_dir/id/name]; the new row records that path, the size in
    bytes and the hash; no other path that held something loses it. *)
Theorem delete_moves_the_file e filepath tag_list reason w data :
  fs w !! resolve e filepath = Some (File data) ->
  path_name (resolve e filepath) <> EmptyString ->
  fs w !! holding_path e w filepath = None ->
  snd (Trash.delete e filepath tag_list reason false w) = Return Deleted ->
  let w' := fst (Trash.delete e filepath tag_list reason false w) in
  fs w' !! resolve e filepath = None
  /\ fs w' !! holding_path e w filepath = Some (File data)
  /\ (forall k n, k <> resolve e filepath -> fs w !! k = Some n ->
                  fs w' !! k = Some n)
  /\ exists row,
       trash_items w' = trash_items w ++ [row]
       /\ item_id row = new_item_id e w filepath
       /\ trashed_path row = holding_path e w filepath
       /\ file_size row = Trash.st_size data
       /\ file_hash row
          = fst (Trash._calculate_hash e (fs w) (resolve e filepath)).
Proof.
  intros Hsrc Hname Hfree Hres.
  apply (proj1 (delete_moves e filepath tag_list reason w data
                  Hsrc Hname Hfree) Hres).
Qed.

Lemma delete_moves_the_file_witness :
  fs after_first_delete !! "/home/u/a.txt" = None
  /\ fs after_first_delete !! "/home/u/.trashbin/files/id1/a.txt"
     = Some (File "alpha").
Proof.
  destruct (delete_moves_the_file (session_env 1000 "id1") "/home/u/a.txt"
              [] None fresh_world "alpha") as (H1 & H2 & _).
  - vm_compute. reflexivity.
  - vm_compute. discriminate.
  - vm_compute. reflexivity.
  - vm_compute. reflexivity.
  - split; [exact H1 | exact H2].
Defined.

(** X12.  When storing the row fails after the file was moved, and
    moving it back is not refused, the file is at its original path
    again with the same bytes, the holding path is free, and the catalog
    and the log are as before. *)
Theorem failed_insert_puts_the_file_back e filepath tag_list reason w data :
  fs w !! resolve e filepath = Some (File data) ->
  path_name (resolve e filepath) <> EmptyString ->
  fs w !! holding_path e w filepath = None ->
  snd (Trash.delete e filepath tag_list reason false w)
  = Return MetadataFailed ->
  move_fails e (holding_path e w filepath) (resolve e filepath) = false ->
  let w' := fst (Trash.delete e filepath tag_list reason false w) in
  fs w' !! resolve e filepath = Some (File data)
  /\ fs w' !! holding_path e w filepath = None
  /\ trash_items w' = trash_items w
  /\ operations w' = operations w.
Proof.
  intros Hsrc Hname Hfree Hres Hback.
  apply (proj2 (delete_moves e filepath tag_list reason w data
                  Hsrc Hname Hfree) Hres Hback).
Qed.

Lemma failed_insert_puts_the_file_back_witness :
  fs (fst (Trash.delete (with_insert_failure (session_env 1000 "id1"))
                        "/home/u/a.txt" [] None false fresh_world))
     !! "/home/u/a.txt" = Some (File "alpha").
Proof.
  destruct (failed_insert_puts_the_file_back
              (with_insert_failure (session_env 1000 "id1")) "/home/u/a.txt"
              [] None fresh_world "alpha") as (H1 & _).
  - vm_compute. reflexivity.
  - vm_compute. discriminate.
  - vm_compute. reflexivity.
  - vm_compute. reflexivity.
  - vm_compute. reflexivity.
  - exact H1.
Defined.

(** X13.  Deleting the same regular file a second time finds nothing:
    after a delete that ended with "Deleted", a delete of the same path
    changes nothing and ends with "File not found" (or, when the [stat]
    of the path is refused in the second call, raises
    [PermissionError]). *)
Theorem second_delete_finds_nothing e e2 filepath tag_list reason
  tag_list2 reason2 dry_run w data :
  fs w !! resolve e filepath = Some (File data) ->
  path_name (resolve e filepath) <> EmptyString ->
  fs w !! holding_path e w filepath = None ->
  snd (Trash.delete e filepath tag_list reason false w) = Return Deleted ->
  resolve e2 filepath = resolve e filepath ->
  let w' := fst (Trash.delete e filepath tag_list reason false w) in
  Trash.delete e2 filepath tag_list2 reason2 dry_run w'
  = (w', if stat_fails e2 (resolve e2 filepath)
         then Raise PermissionError else Return NotFound).
Proof.
  intros Hsrc Hname Hfree Hres Hsame.
  destruct (proj1 (delete_moves e filepath tag_list reason w data
                     Hsrc Hname Hfree) Hres) as [Hgone _].
  simpl. unfold Trash.delete at 1. unfold Path_exists, path_exists.
  rewrite Hsame, Hgone. destruct (stat_fails e2 _); reflexivity.
Qed.

Lemma second_delete_finds_nothing_witness :
  Trash.delete (session_env 1001 "id2") "/home/u/a.txt" [] None false
               after_first_delete
  = (after_first_delete, Return NotFound).
Proof.
  apply (second_delete_finds_nothing (session_env 1000 "id1")
           (session_env 1001 "id2") "/home/u/a.txt" [] None [] None false
           fresh_world "alpha").
  - vm_compute. reflexivity.
  - vm_compute. discriminate.
  - vm_compute. reflexivity.
  - vm_compute. reflexivity.
  - reflexivity.
Defined.

(** ** Access errors during delete *)










(** ** Empty, when it goes through *)

Lemma without_tree_lookup p f k :
  without_tree p f !! k = if in_tree p k then None else f !! k.
Proof.
  unfold without_tree. destruct (in_tree p k) eqn:E.
  - apply map_lookup_filter_None. right. intros x _. simpl. congruence.
  - destruct (f !! k) as [x |] eqn:Ek.
    + apply map_lookup_filter_Some. split; [exact Ek | exact E].
    + apply map_lookup_filter_None. now left.
Qed.

(** X14.  A forced or confirmed [empty] that is not a dry run, on a
    trash with at least one item, when the holding directory is a
    directory and its removal is not refused: afterwards no row is
    unrestored and the restored rows are all kept, the holding directory
    exists and nothing is below it, every path outside it is as before,
    and the log is unchanged. *)
Theorem empty_clears_the_trash e force w :
  not_restored (trash_items w) <> [] ->
  force = true \/ answer e = "yes" ->
  fs w !! files_dir e = Some Dir ->
  remove_fails e (files_dir e) = false ->
  let w' := fst (Trash.empty e force false w) in
  trash_items w' = List.filter restored (trash_items w)
  /\ not_restored (trash_items w') = []
  /\ fs w' !! files_dir e = Some Dir
  /\ (forall k, is_under (files_dir e) k = true -> fs w' !! k = None)
  /\ (forall k, in_tree (files_dir e) k = false -> fs w' !! k = fs w !! k)
  /\ operations w' = operations w.
Proof.
  intros Hne Hgo Hdir Hrm.
  assert (Hrun : Trash.empty e force false w
                 = (set_trash_items (List.filter restored (trash_items w))
                      (set_fs (<[files_dir e := Dir]>
                                 (without_tree (files_dir e) (fs w))) w),
                    Return tt)).
  { unfold Trash.empty.
    destruct (not_restored (trash_items w)) as [| r l] eqn:E;
      [contradiction |]. simpl.
    assert (Hask : negb force && negb (String.eqb (answer e) "yes") = false).
    { destruct Hgo as [-> | ->]; [reflexivity |].
      rewrite String.eqb_refl. apply andb_false_r. }
    rewrite Hask. unfold rmtree, mkdir. rewrite Hrm, Hdir. simpl.
    rewrite without_tree_lookup. unfold in_tree.
    rewrite String.eqb_refl. reflexivity. }
  simpl. rewrite Hrun. simpl. repeat split.
  - unfold not_restored. apply filter_nil. intros r Hr.
    apply filter_In in Hr as [_ Hr]. now rewrite Hr.
  - apply lookup_insert_eq.
  - intros k Hk. rewrite lookup_insert_ne.
    + rewrite without_tree_lookup. unfold in_tree. rewrite Hk.
      now rewrite orb_true_r.
    + intros <-. unfold is_under in Hk. rewrite String.eqb_refl in Hk.
      now rewrite andb_false_r in Hk.
  - intros k Hk. rewrite lookup_insert_ne.
    + rewrite without_tree_lookup. now rewrite Hk.
    + intros <-. unfold in_tree in Hk. now rewrite String.eqb_refl in Hk.
Qed.

Lemma empty_clears_the_trash_witness :
  not_restored (trash_items emptied) = []
  /\ fs emptied !! "/home/u/.trashbin/files/id1/a.txt" = None
  /\ fs emptied !! "/home/u/copy.txt" = Some (File "alpha").
Proof.
  destruct (empty_clears_the_trash (session_env 1500 "") true
              after_two_deletes) as (_ & H2 & _ & H4 & H5 & _).
  - vm_compute. discriminate.
  - left. reflexivity.
  - vm_compute. reflexivity.
  - reflexivity.
  - split; [exact H2 |]. split.
    + apply H4. vm_compute. reflexivity.
    + unfold emptied, run. rewrite H5; vm_compute; reflexivity.
Defined.

(** ** History *)

Lemma insert_by_In {A} (before : A -> A -> bool) x l y :
  In y (insert_by before x l) <-> y = x \/ In y l.
Proof.
  split; intros H.
  - apply (Permutation_in _ (insert_by_perm before x l)) in H.
    destruct H as [<- | H]; auto.
  - apply (Permutation_in _ (Permutation_sym (insert_by_perm before x l))).
    destruct H as [-> | H]; [now left | now right].
Qed.

Lemma timestamp_desc_true e a b :
  timestamp_desc e a b = true -> timestamp b <= timestamp a.
Proof.
  unfold timestamp_desc. intros H. apply orb_true_iff in H as [H | H].
  - apply Z.ltb_lt in H. lia.
  - apply andb_true_iff in H as [H _]. apply Z.eqb_eq in H. lia.
Qed.

Lemma timestamp_desc_false e a b :
  timestamp_desc e a b = false -> timestamp a <= timestamp b.
Proof.
  unfold timestamp_desc. intros H. apply orb_false_iff in H as [H _].
  now apply Z.ltb_ge in H.
Qed.

Lemma insert_newest_first e op l :
  newest_first (map timestamp l) ->
  newest_first (map timestamp (insert_by (timestamp_desc e) op l)).
Proof.
  induction l as [| y l IH]; simpl; intros H.
  - split; [intros t' [] | exact I].
  - destruct H as [Hy Hl].
    destruct (timestamp_desc e op y) eqn:E; simpl.
    + apply timestamp_desc_true in E. split; [| split; assumption].
      intros t' [<- | Ht']; [exact E | specialize (Hy t' Ht'); lia].
    + apply timestamp_desc_false in E. split; [| apply IH, Hl].
      intros t' Ht'. apply in_map_iff in Ht' as (o & <- & Ho).
      apply insert_by_In in Ho as [-> | Ho]; [lia |].
      apply Hy. now apply in_map.
Qed.

Lemma order_by_newest_first e l :
  newest_first (map timestamp (order_by (timestamp_desc e) l)).
Proof.
  induction l as [| op l IH]; simpl; [exact I |].
  apply insert_newest_first, IH.
Qed.

Lemma newest_first_firstn n ts : newest_first ts -> newest_first (firstn n ts).
Proof.
  revert n. induction ts as [| t rest IH]; intros n H;
    destruct n as [| n]; simpl; try exact I.
  destruct H as [Ht Hrest]. split; [| apply IH, Hrest].
  intros t' Ht'. apply Ht.
  rewrite <- (firstn_skipn n rest). apply in_or_app. now left.
Qed.

(** X15.  With a limit that fits SQLite's 64-bit integers,
    [history(limit)] lists operations from newest to oldest timestamp,
    whatever the order of records with equal timestamps; every line is a
    record of the log, undone or not; with a limit that is not negative
    it prints at most [limit] lines, and all of them when the limit is
    negative or not below their number.  With any other limit it raises
    [OverflowError]. *)
Theorem history_is_newest_first e limit w :
  (- 2 ^ 63 <= limit < 2 ^ 63 ->
   exists lines,
     Trash.history e limit w = Return lines
     /\ newest_first (map (fun line => line.1.1) lines)
     /\ (forall line, In line lines ->
           exists op, In op (operations w)
                      /\ line = (timestamp op, operation_type op, undone op))
     /\ (0 <= limit -> (length lines <= Z.to_nat limit)%nat)
     /\ (limit < 0 \/ Z.of_nat (length (operations w)) <= limit ->
         length lines = length (operations w)))
  /\ (~ (- 2 ^ 63 <= limit < 2 ^ 63) ->
      Trash.history e limit w = Raise OverflowError).
Proof.
  unfold Trash.history. split.
  2:{ intros H. now rewrite (sqlite_int_out_of_range limit H). }
  intros H. rewrite (sqlite_int_in_range limit H). simpl.
  eexists. split; [reflexivity |]. unfold sql_limit. repeat split.
  - rewrite map_map. simpl.
    change (map (fun x : operation_row => timestamp x)) with (map timestamp).
    destruct (limit <? 0); [apply order_by_newest_first |].
    rewrite <- firstn_map. apply newest_first_firstn, order_by_newest_first.
  - intros line Hl. apply in_map_iff in Hl as (op & <- & Hop).
    exists op. split; [| reflexivity].
    apply (Permutation_in _ (order_by_perm (timestamp_desc e) (operations w))).
    destruct (limit <? 0); [exact Hop |].
    rewrite <- (firstn_skipn (Z.to_nat limit)). apply in_or_app. now left.
  - intros Hl. rewrite length_map.
    destruct (limit <? 0) eqn:E; [apply Z.ltb_lt in E; lia |].
    apply firstn_le_length.
  - intros Hl. rewrite length_map.
    pose proof (Permutation_length
                  (order_by_perm (timestamp_desc e) (operations w))) as Hlen.
    destruct (limit <? 0) eqn:E; [exact Hlen |].
    apply Z.ltb_ge in E. destruct Hl as [Hl | Hl]; [lia |].
    rewrite firstn_all2; [exact Hlen | lia].
Qed.

Lemma history_is_newest_first_witness :
  exists lines,
    Trash.history (session_env 3000 "") 1 after_two_deletes = Return lines
    /\ (length lines <= Z.to_nat 1)%nat.
Proof.
  destruct (history_is_newest_first (session_env 3000 "") 1 after_two_deletes)
    as [H _].
  destruct H as (lines & Hl & _ & _ & Hlen & _); [lia |].
  exists lines. split; [exact Hl | apply Hlen; lia].
Defined.

(** ** Quota purge of a trash within its quota *)

Lemma int_of_Q_above t x :
  (inject_Z t <= x)%Q -> t <= Trash.int_of_Q x.
Proof.
  unfold Qle, Trash.int_of_Q. destruct x as [num den]. simpl.
  intros H. rewrite Z.mul_1_r in H.
  destruct (Z_le_gt_dec 0 num) as [Hpos | Hneg].
  - rewrite Z.quot_div_nonneg by lia. apply Z.div_le_lower_bound; lia.
  - replace num with (- (- num)) by lia. rewrite Z.quot_opp_l by lia.
    rewrite Z.quot_div_nonneg by lia.
    assert ((- num) / Z.pos den <= - t); [| lia].
    apply Z.div_le_upper_bound; lia.
Qed.

Lemma times_1024_finite q :
  (Qabs (q * inject_Z 1024) < inject_Z (2 ^ 1024))%Q ->
  Trash.times_1024 (Finite q) = Finite (q * inject_Z 1024).
Proof.
  intros H. unfold Trash.times_1024.
  destruct (Qle_bool _ _) eqn:E; [| reflexivity].
  apply Qle_bool_iff in E. exfalso. apply (Qle_not_lt _ _ E H).
Qed.

Lemma times_1024_overflow q :
  (inject_Z (2 ^ 1024) <= Qabs (q * inject_Z 1024))%Q ->
  exists s, Trash.times_1024 (Finite q) = Infinity s.
Proof.
  intros H. unfold Trash.times_1024. apply Qle_bool_iff in H. rewrite H.
  eexists. reflexivity.
Qed.

(** The quota in bytes of a finite float below 2^994 in magnitude. *)
Lemma quota_bytes_finite q :
  (Qabs q * inject_Z (2 ^ 30) < inject_Z (2 ^ 1024))%Q ->
  Trash.quota_bytes (Finite q)
  = Return (Trash.int_of_Q
              (q * inject_Z 1024 * inject_Z 1024 * inject_Z 1024)).
Proof.
  intros H. unfold Trash.quota_bytes.
  assert (Hb : forall c, 0 < c <= 2 ^ 30 ->
                 (Qabs (inject_Z c * q) < inject_Z (2 ^ 1024))%Q).
  { intros c Hc. destruct q as [n d]. revert H.
    unfold Qlt, Qabs, Qmult, inject_Z. simpl Qnum. simpl Qden.
    set (B := 2 ^ 1024). intros H.
    rewrite Z.abs_mul, (Z.abs_eq c) by lia.
    rewrite !Z.mul_1_r in *. rewrite Pos.mul_1_r in H.
    assert (0 <= Z.abs n) by apply Z.abs_nonneg.
    change (2 ^ 30) with 1073741824 in *. nia. }
  assert (H1 : (Qabs (q * inject_Z 1024) < inject_Z (2 ^ 1024))%Q).
  { rewrite Qmult_comm. apply Hb. change (2 ^ 30) with 1073741824. lia. }
  assert (H2 : (Qabs (q * inject_Z 1024 * inject_Z 1024)
                < inject_Z (2 ^ 1024))%Q).
  { assert (E : (q * inject_Z 1024 * inject_Z 1024
                 == inject_Z (1024 * 1024) * q)%Q)
      by (rewrite inject_Z_mult; ring).
    rewrite E. apply Hb. change (2 ^ 30) with 1073741824. lia. }
  assert (H3 : (Qabs (q * inject_Z 1024 * inject_Z 1024 * inject_Z 1024)
                < inject_Z (2 ^ 1024))%Q).
  { assert (E : (q * inject_Z 1024 * inject_Z 1024 * inject_Z 1024
                 == inject_Z (1024 * 1024 * 1024) * q)%Q)
      by (rewrite !inject_Z_mult; ring).
    rewrite E. apply Hb. change (2 ^ 30) with 1073741824. lia. }
  rewrite (times_1024_finite _ H1), (times_1024_finite _ H2),
    (times_1024_finite _ H3).
  reflexivity.
Qed.

(** X16.  With a quota that is a finite float, not zero and below 2^994
    in magnitude (so that its size in bytes, Q x 2^30, is a float), and
    whose size in bytes is at least the total size of the items in the
    trash, [purge] reports that the trash is within quota and changes
    nothing. *)
Theorem purge_within_quota_changes_nothing e q dry_run w :
  ~ (q == 0)%Q ->
  (Qabs q * inject_Z (2 ^ 30) < inject_Z (2 ^ 1024))%Q ->
  (inject_Z (sum_file_size (not_restored (trash_items w)))
   <= q * inject_Z (2 ^ 30))%Q ->
  Trash.purge e None (Some (Finite q)) dry_run w = (w, Return WithinQuota).
Proof.
  intros Hq Hfin Hfit. unfold Trash.purge, Trash.purge_select.
  cbn [Trash.truthy_int Trash.truthy_float].
  destruct (Qeq_bool q 0) eqn:E; [apply Qeq_bool_iff in E; contradiction |].
  cbn [negb]. change (default NaN (Some (Finite q))) with (Finite q).
  rewrite (quota_bytes_finite q Hfin).
  assert (Hle : sum_file_size (not_restored (trash_items w))
                <= Trash.int_of_Q
                     (q * inject_Z 1024 * inject_Z 1024 * inject_Z 1024)).
  { apply int_of_Q_above. eapply Qle_trans; [exact Hfit |].
    apply Qle_lteq. right.
    change (2 ^ 30) with (1024 * 1024 * 1024).
    rewrite !inject_Z_mult. ring. }
  apply Z.leb_le in Hle. rewrite Hle. reflexivity.
Qed.

Lemma purge_within_quota_changes_nothing_witness :
  Trash.purge (session_env 5000 "") None (Some (Finite 1)) false
              after_two_deletes
  = (after_two_deletes, Return WithinQuota).
Proof.
  apply (purge_within_quota_changes_nothing (session_env 5000 "") 1%Q false
           after_two_deletes).
  - discriminate.
  - vm_compute. reflexivity.
  - vm_compute. discriminate.
Defined.

(** A quota that is an infinity or a NaN (both are true in [elif
    size_quota:]) makes [int(...)] raise, and nothing is changed. *)
Lemma purge_quota_infinite_or_nan e dry_run w :
  (forall s, Trash.purge e None (Some (Infinity s)) dry_run w
             = (w, Raise OverflowError))
  /\ Trash.purge e None (Some NaN) dry_run w = (w, Raise ValueError).
Proof. split; [intros s |]; reflexivity. Qed.

(** A finite quota of 2^994 or more overflows on its way to bytes. *)
Lemma purge_quota_overflows e q dry_run w :
  (inject_Z (2 ^ 1024) <= Qabs q * inject_Z (2 ^ 30))%Q ->
  Trash.purge e None (Some (Finite q)) dry_run w = (w, Raise OverflowError).
Proof.
  intros H. apply purge_quota_not_a_number.
  - cbn [Trash.truthy_float]. destruct (Qeq_bool q 0) eqn:E; [| reflexivity].
    apply Qeq_bool_iff in E. exfalso. revert H. destruct q as [n d].
    unfold Qeq in E. simpl in E. rewrite Z.mul_1_r in E. subst n.
    unfold Qle, Qabs, Qmult, inject_Z. simpl. lia.
  - unfold Trash.quota_bytes.
    assert (Hinf : forall s, Trash.times_1024 (Infinity s) = Infinity s)
      by reflexivity.
    destruct (Qlt_le_dec (Qabs (q * inject_Z 1024)) (inject_Z (2 ^ 1024)))
      as [H1 | H1].
    2:{ destruct (times_1024_overflow q H1) as [s ->].
        rewrite !Hinf. reflexivity. }
    rewrite (times_1024_finite _ H1).
    destruct (Qlt_le_dec (Qabs (q * inject_Z 1024 * inject_Z 1024))
                         (inject_Z (2 ^ 1024))) as [H2 | H2].
    2:{ destruct (times_1024_overflow _ H2) as [s ->].
        rewrite !Hinf. reflexivity. }
    rewrite (times_1024_finite _ H2).
    destruct (times_1024_overflow (q * inject_Z 1024 * inject_Z 1024))
      as [s ->]; [| reflexivity].
    eapply Qle_trans; [exact H |]. apply Qle_lteq. right.
    rewrite !Qabs_Qmult.
    change (2 ^ 30) with (1024 * 1024 * 1024).
    rewrite !inject_Z_mult.
    change (Qabs (inject_Z 1024)) with (inject_Z 1024). ring.
Qed.

(** ** Time expressions *)

Lemma endswith_char_snoc s c d :
  endswith_char (s +:+ String c EmptyString) d = Ascii.eqb c d.
Proof.
  induction s as [| a s IH]; simpl; [reflexivity |].
  destruct (s +:+ String c EmptyString) eqn:E; [| exact IH].
  destruct s; discriminate.
Qed.

Lemma drop_last_snoc s c : drop_last (s +:+ String c EmptyString) = s.
Proof.
  induction s as [| a s IH]; simpl; [reflexivity |].
  destruct (s +:+ String c EmptyString) eqn:E.
  - destruct s; discriminate.
  - now rewrite IH.
Qed.

(** X17.  For any text [s]: [s] followed by [d] parses to what [int]
    makes of [s], followed by [w] to 7 times that, by [m] to 30 times
    and by [y] to 365 times, and to nothing when [int] rejects [s] (so
    the bare letters give nothing when [int] rejects the empty text); a
    text ending in none of the four letters parses to what [int] makes
    of all of it. *)
Theorem parse_time_expression_units (int : string -> option Z) s :
  Trash._parse_time_expression int (s +:+ "d") = int s
  /\ Trash._parse_time_expression int (s +:+ "w")
     = (fun n => n * 7) <$> int s
  /\ Trash._parse_time_expression int (s +:+ "m")
     = (fun n => n * 30) <$> int s
  /\ Trash._parse_time_expression int (s +:+ "y")
     = (fun n => n * 365) <$> int s
  /\ (endswith_char s "d" = false -> endswith_char s "w" = false ->
      endswith_char s "m" = false -> endswith_char s "y" = false ->
      Trash._parse_time_expression int s = int s).
Proof.
  unfold Trash._parse_time_expression.
  rewrite !endswith_char_snoc, !drop_last_snoc. simpl.
  repeat split. intros -> -> -> ->. reflexivity.
Qed.

Lemma parse_time_expression_units_witness :
  Trash._parse_time_expression
    (fun s => if String.eqb s "12" then Some 12 else None) "12"
  = Some 12.
Proof.
  destruct (parse_time_expression_units
              (fun s => if String.eqb s "12" then Some 12 else None) "12")
    as (_ & _ & _ & _ & H).
  apply H; reflexivity.
Defined.

(** ** Listing *)

Lemma TrashItems_raises row rows :
  Trash.TrashItems (row :: rows) = Raise AttributeError.
Proof. simpl. rewrite TrashItem_raises. reflexivity. Qed.



(** ** The size of a directory *)



(** ** Verify with repair *)

Lemma prefix_app a b k :
  String.prefix (a +:+ b) k = true -> String.prefix a k = true.
Proof.
  revert k. induction a as [| c a IH]; intros k;
    [destruct k; reflexivity |].
  destruct k as [| c' k]; simpl; [discriminate |].
  destruct (ascii_dec c c'); [apply IH | discriminate].
Qed.

Lemma prefix_app_same a b c :
  String.prefix (a +:+ b) (a +:+ c) = String.prefix b c.
Proof.
  induction a as [| x a IH]; simpl; [reflexivity |].
  destruct (ascii_dec x x); [exact IH | contradiction].
Qed.

Lemma prefix_length a k :
  String.prefix a k = true -> (String.length a <= String.length k)%nat.
Proof.
  revert k. induction a as [| c a IH]; intros k; [simpl; lia |].
  destruct k as [| c' k]; simpl; [discriminate |].
  destruct (ascii_dec c c'); [| discriminate].
  intros H. specialize (IH _ H). lia.
Qed.

Lemma append_assoc a b c : (a +:+ b) +:+ c = a +:+ (b +:+ c).
Proof.
  induction a as [| x a IH]; [reflexivity |].
  change (String x ((a +:+ b) +:+ c) = String x (a +:+ (b +:+ c))).
  now rewrite IH.
Qed.

Lemma eqb_false_by_length a b :
  String.length a <> String.length b -> String.eqb a b = false.
Proof.
  intros H. destruct (String.eqb a b) eqn:E; [| reflexivity].
  apply String.eqb_eq in E. subst. contradiction.
Qed.

Lemma in_tree_joinpath d n k :
  d <> "/" -> d <> EmptyString ->
  in_tree (joinpath d n) k = true -> is_under d k = true.
Proof.
  intros Hd Hd'. unfold joinpath.
  destruct (String.eqb d "/") eqn:E; [apply String.eqb_eq in E; contradiction |].
  assert (Hlen : (0 < String.length d)%nat) by (destruct d; simpl; [contradiction | lia]).
  unfold in_tree, is_under, startswith. rewrite E.
  assert (Hx : String.eqb (d +:+ "/" +:+ n) "/" = false).
  { apply eqb_false_by_length. rewrite !length_append. simpl. lia. }
  rewrite Hx. intros H. apply orb_true_iff in H as [H | H].
  - apply String.eqb_eq in H. subst k. apply andb_true_iff. split.
    + change (d +:+ "/" +:+ n) with (d +:+ ("/" +:+ n)).
      rewrite prefix_app_same. change ("/" +:+ n) with (String "/"%char n).
      simpl. destruct n; reflexivity.
    + apply negb_true_iff, eqb_false_by_length.
      rewrite !length_append. simpl. lia.
  - apply andb_true_iff in H as [H _].
    rewrite !append_assoc in H. rewrite <- append_assoc in H.
    pose proof (prefix_app _ _ _ H) as Hp.
    apply andb_true_iff. split; [exact Hp |].
    apply negb_true_iff, eqb_false_by_length.
    apply prefix_length in Hp. rewrite length_append in Hp. simpl in Hp. lia.
Qed.

Lemma is_under_in_tree d k : is_under d k = false -> k <> d -> in_tree d k = false.
Proof.
  intros H Hk. unfold in_tree. rewrite H, orb_false_r.
  destruct (String.eqb k d) eqn:E; [apply String.eqb_eq in E; contradiction | reflexivity].
Qed.

Lemma verify_orphans_outside e repair names f k :
  files_dir e <> "/" -> files_dir e <> EmptyString ->
  is_under (files_dir e) k = false ->
  Trash.verify_orphans e repair names f !! k = f !! k.
Proof.
  intros Hd Hd' Hk. revert f.
  induction names as [| n rest IH]; intros f; simpl; [reflexivity |].
  rewrite IH. destruct repair; [| reflexivity].
  unfold rmtree. destruct (remove_fails e _); [reflexivity |].
  destruct (f !! joinpath (files_dir e) n) as [[data |] |]; try reflexivity.
  rewrite without_tree_lookup.
  destruct (in_tree (joinpath (files_dir e) n) k) eqn:E; [| reflexivity].
  apply (in_tree_joinpath _ _ _ Hd Hd') in E. congruence.
Qed.

Lemma verify_missing_fs e repair rows w issues :
  fs (fst (Trash.verify_missing e repair rows w issues)) = fs w.
Proof.
  revert w issues. induction rows as [| row rest IH]; intros w issues; simpl.
  - reflexivity.
  - destruct (TrashItem row) as [item | x]; simpl; [| reflexivity].
    destruct (Path_exists _ _ _) as [[|] | x]; [| destruct repair |];
      simpl; rewrite ?IH; reflexivity.
Qed.

(** X20.  [verify], with or without repair, changes nothing outside the
    holding directory: every path that is not below it, the holding
    directory itself included, holds afterwards what it held before, and
    the log is as before.  The holding directory is neither the root nor
    the empty path. *)
Theorem verify_stays_inside_the_holding_directory e repair w k :
  files_dir e <> "/" -> files_dir e <> EmptyString ->
  is_under (files_dir e) k = false ->
  fs (fst (Trash.verify e repair w)) !! k = fs w !! k
  /\ operations (fst (Trash.verify e repair w)) = operations w.
Proof.
  intros Hd Hd' Hk. split; [| apply verify_operations].
  unfold Trash.verify. destruct (bind _ _) as [disk_ids | x]; [| reflexivity].
  rewrite verify_missing_fs. simpl.
  now apply verify_orphans_outside.
Qed.

Lemma verify_stays_inside_the_holding_directory_witness :
  fs (fst (Trash.verify (session_env 3000 "") true after_two_deletes))
     !! "/home/u/copy.txt"
  = fs after_two_deletes !! "/home/u/copy.txt".
Proof.
  apply (verify_stays_inside_the_holding_directory (session_env 3000 "") true
           after_two_deletes "/home/u/copy.txt").
  - discriminate.
  - discriminate.
  - vm_compute. reflexivity.
Defined.

(** ** Restore and purge as they run *)

Lemma restore_loop_raises e output dry_run row rows w n :
  Trash.restore_loop e output dry_run (row :: rows) w n
  = (w, Raise AttributeError).
Proof. simpl. rewrite TrashItem_raises. reflexivity. Qed.

Lemma select_over_quota_result rows current quota :
  Trash.select_over_quota rows current quota = Return []
  \/ Trash.select_over_quota rows current quota = Raise AttributeError.
Proof.
  destruct rows as [| row rows]; simpl; [now left |].
  destruct (current <=? quota); [now left |].
  rewrite TrashItem_raises. now right.
Qed.

Lemma TrashItems_result rows :
  Trash.TrashItems rows = Return [] \/ Trash.TrashItems rows = Raise AttributeError.
Proof.
  destruct rows as [| row rows]; [now left | right; apply TrashItems_raises].
Qed.

(** X21.  As the code runs, [restore] and [purge] never change the
    store: for every argument the file system, the catalog, the log and
    the configuration are as before.  [restore] returns the count 0 or
    raises [AttributeError]; it never reports a restored item. *)
Theorem restore_and_purge_change_nothing e w :
  (forall pattern output dry_run interactive,
     fst (Trash.restore e pattern output dry_run interactive w) = w
     /\ (snd (Trash.restore e pattern output dry_run interactive w) = Return 0
         \/ snd (Trash.restore e pattern output dry_run interactive w)
            = Raise AttributeError))
  /\ (forall older_than size_quota dry_run,
        fst (Trash.purge e older_than size_quota dry_run w) = w).
Proof.
  split.
  - intros pattern output dry_run interactive. unfold Trash.restore.
    destruct interactive; [split; [reflexivity | now left] |].
    destruct pattern as [pattern |]; [| split; [reflexivity | now left]].
    destruct (String.eqb pattern ""); [split; [reflexivity | now left] |].
    destruct (order_by _ _) as [| row rows]; [split; [reflexivity | now left] |].
    rewrite restore_loop_raises. split; [reflexivity | now right].
  - intros older_than size_quota dry_run. unfold Trash.purge, Trash.purge_select.
    destruct (Trash.truthy_int older_than).
    + destruct (TrashItems_result
                  (order_by (deletion_time_asc e)
                     (List.filter
                        (fun r => (deletion_time r
                                   <? now e 0%nat - Trash.seconds_per_day
                                              * default 0 older_than)
                                  && negb (restored r)) (trash_items w))))
        as [-> | ->]; reflexivity.
    + destruct (Trash.truthy_float size_quota); [| reflexivity].
      destruct (Trash.quota_bytes _) as [quota | x]; [| reflexivity].
      destruct (_ <=? _); [reflexivity |].
      destruct (select_over_quota_result
                  (order_by (deletion_time_asc e)
                            (not_restored (trash_items w)))
                  (sum_file_size (not_restored (trash_items w))) quota)
        as [-> | ->]; reflexivity.
Qed.
